(** * Transcript segmentation and quiz assembly/grading

    A shallow embedding of the two pieces of logic of the video
    transcription backend that carry an algorithm:

    - [TranscriptionService.segmentTranscript] and
      [TranscriptionService.ensureMinimumSegmentLength]
      (services/TranscriptionService.ts), the segment merger;
    - [QuestionController.generateQuiz], [QuestionController.submitQuiz]
      and [QuestionController.shuffleArray]
      (controllers/QuestionController.ts), the quiz assembler and grader.

    Modelling conventions.
    - A JavaScript [number] that carries a time or a ratio is the rational
      ([Q]) that the double denotes.  The arithmetic of the merger and of
      the grader ([+ 1], the subtraction compared against 300, the division
      and the multiplication by 100) rounds its exact result to the nearest
      double, ties to even ([Js.double]); inputs are taken to be doubles, so
      a decimal literal [d] of the source or of a JSON file stands for
      [Js.double d].  A division by zero has no rational result and yields
      [None]; a result beyond the largest double stands for the infinity of
      its sign, with which it compares alike.  The timestamp helpers, the
      average of the statistics and the index drawn by the shuffle are
      computed exactly; what is stated of them does not depend on the
      rounding.  Counts, indices and answers are integers ([Z]).
    - A JavaScript string is a [string] of 8-bit code units.
    - A field that may be missing ([undefined]) is an [option]; fields
      otherwise have the type that the TypeScript interfaces give them.
    - [Math.random()] and [Date.now()] are read from an explicit oracle; the
      number of draws consumed so far is threaded as state.
    - The persistence store is a finite map from video identifiers to
      video documents; a query that rejects instead of answering is an
      explicit argument of the two handlers of which failure is stated. *)

From Stdlib Require Import Ascii String QArith Qround Qabs Qpower Lqa Sorted.
From stdpp Require Import base list strings gmap pretty.

Local Open Scope string_scope.
Local Open Scope list_scope.

(** ** Results of fallible operations *)

Inductive Result (A : Type) : Type :=
| Ok (a : A)
| Throw (message : string).
Arguments Ok {A} a.
Arguments Throw {A} message.

(** ** JavaScript primitives used by the code *)

Module Js.

(** [x || d] on an optional number: [undefined] and [0] are falsy. *)
Definition num_or (x : option Q) (d : Q) : Q :=
  match x with
  | Some v => if Qeq_bool v 0 then d else v
  | None => d
  end.

(** [x || d] on an optional string: [undefined] and [''] are falsy. *)
Definition str_or (x : option string) (d : string) : string :=
  match x with
  | Some "" | None => d
  | Some s => s
  end.

(** White space as [String.prototype.trim] understands it, within the
    8-bit range: TAB, LF, VT, FF, CR, SPACE and NBSP. *)
Definition isWhiteSpace (c : ascii) : bool :=
  let n := nat_of_ascii c in
  ((9 <=? n)%nat && (n <=? 13)%nat) || (n =? 32)%nat || (n =? 160)%nat.

Fixpoint trimStart (s : string) : string :=
  match s with
  | "" => ""
  | String c s' => if isWhiteSpace c then trimStart s' else s
  end.

Fixpoint trimEnd (s : string) : string :=
  match s with
  | "" => ""
  | String c s' =>
      match trimEnd s' with
      | "" => if isWhiteSpace c then "" else String c ""
      | t => String c t
      end
  end.

Definition trim (s : string) : string := trimEnd (trimStart s).

(** [s.split(' ')]: the pieces between single spaces, empty pieces kept. *)
Fixpoint split_space (s : string) : list string :=
  match s with
  | "" => [""]
  | String c s' =>
      if Ascii.eqb c " "%char then "" :: split_space s'
      else match split_space s' with
           | w :: ws => String c w :: ws
           | [] => [String c ""]
           end
  end.

(** [xs.join(' ')]. *)
Fixpoint join_space (xs : list string) : string :=
  match xs with
  | [] => ""
  | [x] => x
  | x :: rest => x +:+ " " +:+ join_space rest
  end.

(** [Math.round]: the nearest integer, halves rounded up. *)
Definition Math_round (x : Q) : Z := Qfloor (x + (1 # 2)).

(** [Math.floor]. *)
Definition Math_floor (x : Q) : Z := Qfloor x.

(** *** Double-precision arithmetic *)

(** [floor (log2 |x|)] for [x <> 0]: the difference of the bit lengths of
    numerator and denominator, or one less. *)
Definition binade (x : Q) : Z :=
  let l := (Z.log2 (Z.abs (Qnum x)) - Z.log2 (Zpos (Qden x)))%Z in
  if Qle_bool (2 ^ l) (Qabs x) then l else (l - 1)%Z.

(** The nearest integer, ties to the even one. *)
Definition roundEven (x : Q) : Z :=
  let f := Qfloor x in
  match Qcompare (x - inject_Z f) (1 # 2) with
  | Lt => f
  | Gt => (f + 1)%Z
  | Eq => if Z.even f then f else (f + 1)%Z
  end.

(** The exponent of the unit in the last place of the double nearest to
    [x]: 53 significant bits, and not below the subnormal spacing
    [2^-1074]. *)
Definition ulpExponent (x : Q) : Z := Z.max (-1074) (binade x - 52).

(** The double nearest to [x], ties to even (IEEE 754 binary64,
    round-to-nearest).  From [2^1024 - 2^970] on the result is no double:
    it stands for the infinity of that sign. *)
Definition double (x : Q) : Q :=
  if Qeq_bool x 0 then 0
  else Qred (inject_Z (roundEven (x / 2 ^ ulpExponent x)) * 2 ^ ulpExponent x).
Arguments double : simpl never.

(** [a + b], [a - b] and [a * b] on doubles. *)
Definition add (a b : Q) : Q := double (a + b).
Definition sub (a b : Q) : Q := double (a - b).
Definition mul (a b : Q) : Q := double (a * b).

(** [a / b] on doubles; [None] for a zero divisor, where the result is
    [NaN] or an infinity. *)
Definition div (a b : Q) : option Q :=
  if Qeq_bool b 0 then None else Some (double (a / b)).

(** A numeric condition: [undefined] and [0] are falsy. *)
Definition truthy (x : option Z) : bool :=
  match x with
  | Some n => negb (n =? 0)%Z
  | None => false
  end.

(** [a.slice(0, n)]: a negative [n] counts from the end of the array. *)
Definition slice0 {T : Type} (a : list T) (n : Z) : list T :=
  let len := Z.of_nat (length a) in
  let final := if (n <? 0)%Z then Z.max (len + n) 0 else Z.min n len in
  take (Z.to_nat final) a.

(** [a[i]] for a numeric index: anything outside [0, length) is
    [undefined]. *)
Definition index {T : Type} (a : list T) (i : Z) : option T :=
  if (i <? 0)%Z then None else a !! Z.to_nat i.

(** [Set.prototype.add] on a set that remembers insertion order. *)
Definition Set_add (s : list Z) (x : Z) : list Z :=
  if decide (x ∈ s) then s else s ++ [x].

(** [[...new Set(xs)]]: the distinct values, in order of first
    occurrence. *)
Definition Set_values (xs : list Z) : list Z := fold_left Set_add xs [].

(** [[a[i], a[j]] = [a[j], a[i]]].  Both indices are in range wherever
    the code uses it; outside the range the model leaves the array as
    it is. *)
Definition swap {T : Type} (a : list T) (i j : nat) : list T :=
  match a !! i, a !! j with
  | Some x, Some y => <[j := x]> (<[i := y]> a)
  | _, _ => a
  end.

End Js.

(** ** Data model (models/Video.ts) *)

Record ISegment : Type := mkSegment {
  startTime : Q;
  endTime : Q;
  text : string;
  segmentIndex : Z
}.

Record IQuestion : Type := mkQuestion {
  question : string;
  options : list string;
  correctAnswer : Z;
  explanation : option string;
  q_segmentIndex : Z
}.

(** The part of a video document that the controller reads. *)
Record IVideo : Type := mkVideo {
  segments : list ISegment;
  questions : option (list IQuestion)
}.

(** [0, 1, ..., n-1], the indices that [map((x, index) => ...)] hands out. *)
Definition indicesFromZero (n : nat) : list Z := Z.of_nat <$> seq 0 n.

(** ** The segment merger (services/TranscriptionService.ts) *)

Module TranscriptionService.

(** One entry of Whisper's [segments] array, as read from the JSON file:
    any of its fields may be missing. *)
Record RawFragment : Type := mkFragment {
  frag_start : option Q;
  frag_end : option Q;
  frag_text : option string
}.

(** The parsed transcript; [None] stands for a [segments] field that is
    missing or is not an array. *)
Record TranscriptData : Type := mkTranscript {
  td_segments : option (list RawFragment)
}.

(** [private segmentDuration: number = 300] *)
Definition segmentDuration : Q := 300.

(** [const minWords = 50] *)
Definition minWords : nat := 50.

(** The three locals of a fragment, lines 149-151. *)
Definition fragStartTime (f : RawFragment) : Q := Js.num_or (frag_start f) 0.
Definition fragEndTime (f : RawFragment) : Q :=
  Js.num_or (frag_end f) (Js.add (fragStartTime f) 1).
Definition fragText (f : RawFragment) : string :=
  Js.trim (Js.str_or (frag_text f) "").

(** The mutable locals of the coarse loop. *)
Record CoarseState : Type := mkCoarse {
  cs_segments : list ISegment;
  cs_current : option ISegment;
  cs_index : Z
}.

Definition coarseInit : CoarseState := mkCoarse [] None 0.

(** One iteration of [for (const segment of transcriptData.segments)]. *)
Definition coarseStep (st : CoarseState) (f : RawFragment) : CoarseState :=
  let start := fragStartTime f in
  let stop := fragEndTime f in
  let txt := fragText f in
  if String.eqb txt "" then st
  else
    match cs_current st with
    | None =>
        mkCoarse (cs_segments st)
                 (Some (mkSegment start stop txt (cs_index st)))
                 (cs_index st)
    | Some cur =>
        let duration := Js.sub (endTime cur) (startTime cur) in
        if Qle_bool segmentDuration duration then
          mkCoarse (cs_segments st ++ [cur])
                   (Some (mkSegment start stop txt (cs_index st + 1)))
                   (cs_index st + 1)
        else
          mkCoarse (cs_segments st)
                   (Some (mkSegment (startTime cur) stop
                                    (text cur +:+ " " +:+ txt)
                                    (segmentIndex cur)))
                   (cs_index st)
    end.

(** The flush after the loop, lines 186-189. *)
Definition coarseFlush (st : CoarseState) : list ISegment :=
  match cs_current st with
  | Some cur => cs_segments st ++ [cur]
  | None => cs_segments st
  end.

(** The coarse pass: the loop followed by the flush. *)
Definition coarsePass (fs : list RawFragment) : list ISegment :=
  coarseFlush (fold_left coarseStep fs coarseInit).

Definition wordCount (s : string) : nat := length (Js.split_space s).

(** The mutable locals of the loop of [ensureMinimumSegmentLength]. *)
Record MinState : Type := mkMin {
  ms_result : list ISegment;
  ms_current : option ISegment
}.

Definition minStep (st : MinState) (segment : ISegment) : MinState :=
  let wc := wordCount (text segment) in
  match ms_current st with
  | None => mkMin (ms_result st) (Some segment)
  | Some cur =>
      if (wc <? minWords)%nat then
        mkMin (ms_result st)
              (Some (mkSegment (startTime cur)
                               (endTime segment)
                               (text cur +:+ " " +:+ text segment)
                               (segmentIndex cur)))
      else
        mkMin (ms_result st ++ [cur]) (Some segment)
  end.

Definition minFlush (st : MinState) : list ISegment :=
  match ms_current st with
  | Some cur => ms_result st ++ [cur]
  | None => ms_result st
  end.

(** [result.map((segment, index) => ({...segment, segmentIndex: index}))] *)
Definition reindex (l : list ISegment) : list ISegment :=
  imap (fun index segment =>
          mkSegment (startTime segment)
                    (endTime segment)
                    (text segment)
                    (Z.of_nat index)) l.

Definition ensureMinimumSegmentLength (segs : list ISegment) : list ISegment :=
  reindex (minFlush (fold_left minStep segs (mkMin [] None))).

Definition segmentTranscript (transcriptData : TranscriptData) : Result (list ISegment) :=
  match td_segments transcriptData with
  | None =>
      Throw "Failed to segment transcript: Invalid transcript format: missing segments array"
  | Some fs => Ok (ensureMinimumSegmentLength (coarsePass fs))
  end.

End TranscriptionService.

(** ** The quiz assembler and grader (controllers/QuestionController.ts) *)

Module QuestionController.

Record QuizAnswer : Type := mkAnswer {
  questionIndex : Z;
  selectedAnswer : Z
}.

(** The request body, with its declared type: a video id and an array of
    answer objects. *)
Record QuizSubmission : Type := mkSubmission {
  videoId : string;
  answers : list QuizAnswer
}.

(** One entry of [QuizResult['answers']]. *)
Record AnswerResult : Type := mkAnswerResult {
  r_questionIndex : Z;
  r_question : string;
  r_selectedAnswer : Z;
  r_correctAnswer : Z;
  r_isCorrect : bool;
  r_explanation : string
}.

(** [percentage] is a number: [None] stands for [NaN]. *)
Record QuizResult : Type := mkQuizResult {
  score : Z;
  totalQuestions : Z;
  percentage : option Z;
  r_answers : list AnswerResult
}.

(** [IQuestion & { questionIndex: number }] *)
Record QuizQuestion : Type := mkQuizQuestion {
  qq_question : IQuestion;
  qq_questionIndex : Z
}.

Record Quiz : Type := mkQuiz {
  quizId : string;
  quiz_questions : list QuizQuestion;
  quiz_totalQuestions : Z;
  instructions : string
}.

(** The [catch] clause of a handler: the message gets a prefix. *)
Definition rethrow {A : Type} (prefix : string) (r : Result A) : Result A :=
  match r with
  | Ok a => Ok a
  | Throw m => Throw (prefix +:+ m)
  end.

(** [await Video.findById(id)].  The query resolves to the stored document
    or to [null]; or it rejects, with a [CastError] when [id] cannot be cast
    to an ObjectId or with an error of the database driver: [rejection] is
    then the message of that error.  Whether it rejects is decided by
    Mongoose and the database, outside this model. *)
Definition findById (rejection : option string) (store : gmap string IVideo)
    (id : string) : Result (option IVideo) :=
  match rejection with
  | Some message => Throw message
  | None => Ok (store !! id)
  end.

Section WithOracle.

(** [random k] is the value of the [k]-th call of [Math.random()];
    its contract is [0 <= random k < 1]. [now] is [Date.now()]. *)
Variable random : nat -> Q.
Variable now : Z.

(** The body of the [for] loop of [shuffleArray], from index [i] down
    to [1]; [k] counts the draws made so far. *)
Fixpoint shuffleLoop {T : Type} (i : nat) (shuffled : list T) (k : nat)
  : list T * nat :=
  match i with
  | O => (shuffled, k)
  | S i' =>
      let j := Z.to_nat (Js.Math_floor (random k * inject_Z (Z.of_nat (S i' + 1)))) in
      shuffleLoop i' (Js.swap shuffled (S i') j) (S k)
  end.

Definition shuffleArray {T : Type} (array : list T) (k : nat) : list T * nat :=
  shuffleLoop (length array - 1) array k.

(** One iteration of [for (const segmentIndex of segmentIndices)]. *)
Definition perSegmentStep (pool : list IQuestion) (questionsPerSegment : Z)
    (st : list IQuestion * nat) (segIdx : Z) : list IQuestion * nat :=
  let segmentQuestions := filter (fun q => q_segmentIndex q = segIdx) pool in
  let '(shuffled, k') := shuffleArray segmentQuestions (snd st) in
  (fst st ++ Js.slice0 shuffled questionsPerSegment, k').

(** Lines 135-150: the selection. *)
Definition selectQuestions (pool : list IQuestion) (questionsPerSegment : Z)
    (total : option Z) (k : nat) : list IQuestion * nat :=
  if Js.truthy total then
    let '(shuffled, k') := shuffleArray pool k in
    (Js.slice0 shuffled (default 0%Z total), k')
  else
    let segmentIndices := Js.Set_values (q_segmentIndex <$> pool) in
    fold_left (perSegmentStep pool questionsPerSegment) segmentIndices ([], k).

Definition quiz_instructions : string :=
  "Select the best answer for each question. Click 'Submit Quiz' when you're done.".

(** [generateQuiz]; an omitted query parameter is [None] and takes its
    default ([questionsPerSegment = 2], [shuffle = true]). *)
Definition generateQuiz (rejection : option string)
    (store : gmap string IVideo) (vid : string)
    (questionsPerSegment : option Z) (total : option Z)
    (shuffle : option bool) (k : nat) : Result Quiz * nat :=
  match findById rejection store vid with
  | Throw m => (rethrow "Failed to generate quiz: " (Throw m), k)
  | Ok None => (rethrow "Failed to generate quiz: " (Throw "Video not found"), k)
  | Ok (Some video) =>
      match questions video with
      | None | Some [] =>
          (rethrow "Failed to generate quiz: "
             (Throw "No questions available for this video"), k)
      | Some pool =>
          let '(selected, k1) :=
            selectQuestions pool (default 2%Z questionsPerSegment) total k in
          let '(selected', k2) :=
            if default true shuffle then shuffleArray selected k1
            else (selected, k1) in
          let questionsWithIndices :=
            imap (fun index q => mkQuizQuestion q (Z.of_nat index)) selected' in
          (Ok (mkQuiz (vid +:+ "_" +:+ pretty now)
                      questionsWithIndices
                      (Z.of_nat (length selected'))
                      quiz_instructions), k2)
      end
  end.

End WithOracle.

(** The mutable locals of the grading loop. *)
Record GradeState : Type := mkGrade {
  g_results : list AnswerResult;
  g_correctAnswers : Z
}.

(** One iteration of [for (const answer of submission.answers)]. *)
Definition gradeStep (stored : list IQuestion) (st : GradeState)
    (answer : QuizAnswer) : GradeState :=
  match Js.index stored (questionIndex answer) with
  | Some q =>
      let isCorrect := (selectedAnswer answer =? correctAnswer q)%Z in
      mkGrade
        (g_results st ++
           [mkAnswerResult (questionIndex answer) (question q)
              (selectedAnswer answer) (correctAnswer q) isCorrect
              (Js.str_or (explanation q) "No explanation provided")])
        (if isCorrect then g_correctAnswers st + 1 else g_correctAnswers st)
  | None => st
  end.

(** [totalQuestions > 0 ? Math.round((correctAnswers / totalQuestions) *
    100) : 0] *)
Definition computePercentage (correctAnswers total : Z) : option Z :=
  if (0 <? total)%Z
  then (fun ratio => Js.Math_round (Js.mul ratio 100))
         <$> Js.div (inject_Z correctAnswers) (inject_Z total)
  else Some 0%Z.
Arguments computePercentage : simpl never.

Definition submitQuiz (rejection : option string) (store : gmap string IVideo)
    (submission : QuizSubmission) : Result QuizResult :=
  match findById rejection store (videoId submission) with
  | Throw m => rethrow "Failed to submit quiz: " (Throw m)
  | Ok None => rethrow "Failed to submit quiz: " (Throw "Video not found")
  | Ok (Some video) =>
      match questions video with
      | None | Some [] =>
          rethrow "Failed to submit quiz: "
            (Throw "No questions available for grading")
      | Some stored =>
          let st := fold_left (gradeStep stored) (answers submission)
                              (mkGrade [] 0) in
          let total := Z.of_nat (length (answers submission)) in
          Ok (mkQuizResult (g_correctAnswers st) total
                (computePercentage (g_correctAnswers st) total)
                (g_results st))
      end
  end.

End QuestionController.

(** * Auxiliary definitions for the statements

    Example inputs, loop invariants and the reference formulations that
    the theorems below compare the code with. *)

Module MergerSpec.
Import TranscriptionService.

(** ** The worked example *)

Definition sixtyWords : string := Js.join_space (replicate 60 "a").

Definition exampleFragments : list RawFragment :=
  [ mkFragment (Some 0%Q) (Some 310%Q) (Some sixtyWords);
    mkFragment (Some 310%Q) (Some 320%Q) (Some "b") ].

(** ** The coarse loop *)

(** What the loop maintains: before the first kept fragment nothing has
    been pushed and the counter is zero; afterwards the counter is the
    number of pushed segments. *)
Definition coarse_inv (st : CoarseState) : Prop :=
  match cs_current st with
  | None => cs_segments st = [] /\ cs_index st = 0%Z
  | Some _ => cs_index st = Z.of_nat (length (cs_segments st))
  end.

(** The segment that a kept fragment opens. *)
Definition openSegment (f : RawFragment) (index : Z) : ISegment :=
  mkSegment (fragStartTime f) (fragEndTime f) (fragText f) index.

(** The running segment after a kept fragment has been appended to it. *)
Definition extendSegment (cur : ISegment) (f : RawFragment) : ISegment :=
  mkSegment (startTime cur) (fragEndTime f)
            (text cur +:+ " " +:+ fragText f) (segmentIndex cur).

Definition paddedFragment : RawFragment :=
  mkFragment (Some 0%Q) (Some 10%Q) (Some " hi ").
Definition blankFragment : RawFragment :=
  mkFragment (Some 0%Q) (Some 10%Q) (Some "   ").

(** A fragment that ends before it starts. *)
Definition backwardFragment : RawFragment :=
  mkFragment (Some 10%Q) (Some 5%Q) (Some "x").

(** ** The minimum-length loop *)

Definition setIndex (s : ISegment) (index : Z) : ISegment :=
  mkSegment (startTime s) (endTime s) (text s) index.

(** The running segment after a coarse segment has been merged into it. *)
Definition mergeInto (cur segment : ISegment) : ISegment :=
  mkSegment (startTime cur) (endTime segment)
            (text cur +:+ " " +:+ text segment) (segmentIndex cur).

(** The loop and the flush, before the re-indexing. *)
Definition minLoop (segs : list ISegment) : list ISegment :=
  minFlush (fold_left minStep segs (mkMin [] None)).

Definition longEnough (s : ISegment) : Prop :=
  (minWords <= wordCount (text s))%nat.

(** The minimum-length pass as the specification words it: the test is on
    the word count of the running segment; once that has reached the
    threshold the running segment is flushed and the next coarse segment
    starts a fresh one, and until then coarse segments keep being
    accumulated into it. *)
Definition specMinStep (st : MinState) (segment : ISegment) : MinState :=
  match ms_current st with
  | None => mkMin (ms_result st) (Some segment)
  | Some cur =>
      if (minWords <=? wordCount (text cur))%nat
      then mkMin (ms_result st ++ [cur]) (Some segment)
      else mkMin (ms_result st) (Some (mergeInto cur segment))
  end.

Definition specMinimumLengthPass (segs : list ISegment) : list ISegment :=
  reindex (minFlush (fold_left specMinStep segs (mkMin [] None))).

Definition shortThenLong : list ISegment :=
  [ mkSegment 0 300 "hi" 0; mkSegment 300 600 sixtyWords 1 ].

Definition longThenShort : list ISegment :=
  [ mkSegment 0 310 sixtyWords 0; mkSegment 310 320 "b" 1 ].

(** ** Time spans *)

Definition span (s : ISegment) : Q * Q := (startTime s, endTime s).
Definition fspan (f : RawFragment) : Q * Q := (fragStartTime f, fragEndTime f).

(** No span ends before the start of itself or of an earlier span. *)
Fixpoint ordered (l : list (Q * Q)) : Prop :=
  match l with
  | [] => True
  | x :: l' =>
      (fst x <= snd x)%Q /\ Forall (fun y => (fst x <= snd y)%Q) l' /\ ordered l'
  end.

(** The fragments that the coarse loop does not skip. *)
Definition keptFragments (fs : list RawFragment) : list RawFragment :=
  filter (fun f => fragText f <> "") fs.

(** The input is time-consistent when no kept fragment ends before the
    start of itself or of an earlier kept fragment. *)
Definition timeConsistent (fs : list RawFragment) : Prop :=
  ordered (fspan <$> keptFragments fs).

(** Spans in chronological order: each ends no earlier than it starts, and
    the starts never decrease. *)
Definition chronological (l : list (Q * Q)) : Prop :=
  Forall (fun x => (fst x <= snd x)%Q) l /\
  StronglySorted (fun x y => (fst x <= fst y)%Q) l.

End MergerSpec.

Module QuizSpec.
Import QuestionController.

(** The questions of a returned quiz, in order, without their
    [questionIndex]; [None] when the call failed. *)
Definition selectedOf (r : Result Quiz) : option (list IQuestion) :=
  match r with
  | Ok quiz => Some (qq_question <$> quiz_questions quiz)
  | Throw _ => None
  end.

(** The stored questions of one segment. *)
Definition groupOf (pool : list IQuestion) (g : Z) : list IQuestion :=
  filter (fun q => q_segmentIndex q = g) pool.

(** The distinct segment indices of the pool, in order of first occurrence. *)
Definition groupsOf (pool : list IQuestion) : list Z :=
  Js.Set_values (q_segmentIndex <$> pool).

(** What one round of the per-segment loop contributes for segment [g]. *)
Definition chunkOf (pool : list IQuestion) (count : Z) (g : Z)
    (chunk : list IQuestion) : Prop :=
  chunk ⊆+ groupOf pool g /\
  length chunk = Nat.min (Z.to_nat count) (length (groupOf pool g)).

(** The video is absent, or it has no stored questions. *)
Definition nothingToQuiz (store : gmap string IVideo) (vid : string) : Prop :=
  match store !! vid with
  | None => True
  | Some video => questions video = None \/ questions video = Some []
  end.

(** The submitted answer points at a stored question. *)
Definition inBounds (stored : list IQuestion) (a : QuizAnswer) : Prop :=
  (0 <= questionIndex a < Z.of_nat (length stored))%Z.



(** Example data. *)
Definition exampleQuestion (name : string) (correct seg : Z) : IQuestion :=
  mkQuestion name ["a"; "b"; "c"; "d"] correct None seg.

Definition examplePool : list IQuestion :=
  [ exampleQuestion "q0" 0 0; exampleQuestion "q1" 1 0; exampleQuestion "q2" 2 0;
    exampleQuestion "q3" 3 1 ].

Definition exampleStore : gmap string IVideo :=
  {[ "v" := mkVideo [] (Some examplePool) ]}.

(** A store whose only video has a well-formed id, and a well-formed id
    that is not in it. *)
Definition storedId : string := "64b7f3a2c1d2e3f4a5b6c7d8".
Definition absentId : string := "64b7f3a2c1d2e3f4a5b6c7d9".
Definition libraryStore : gmap string IVideo :=
  {[ storedId := mkVideo [] (Some examplePool) ]}.

(** An oracle whose [Math.random()] always returns 0. *)
Definition zeroRandom (k : nat) : Q := 0.

(** A store whose only video has an empty question list. *)
Definition emptyPoolStore : gmap string IVideo :=
  {[ "e" := mkVideo [] (Some []) ]}.

Definition exampleSubmission : QuizSubmission :=
  mkSubmission "v" [mkAnswer 0 0; mkAnswer 7 0; mkAnswer 1 0].

End QuizSpec.

(** * Further code of the repository

    The rest of [TranscriptionService], the handlers of
    [TranscriptionController] and [QuestionController] that read or edit
    segments and questions, [QuestionGenerationService] and the error
    middleware. *)

(** ** [TranscriptionService.transcribeVideo] *)

Module TranscribeVideo.
Import TranscriptionService.

Record TranscriptionResult : Type := mkTranscriptionResult {
  fullTranscript : string;
  tr_segments : list ISegment
}.

(** [whisper] is the outcome of [runWhisper] followed by
    [readTranscriptFile]: the parsed JSON file, or the message of the error
    that either of them threw.  The clean-up of temporary files swallows its
    own errors and does not show in the result. *)
Definition transcribeVideo (whisper : Result TranscriptData)
  : Result TranscriptionResult :=
  QuestionController.rethrow "Transcription failed: "
    match whisper with
    | Throw m => Throw m
    | Ok transcriptData =>
        match segmentTranscript transcriptData with
        | Throw m => Throw m
        | Ok segs =>
            Ok (mkTranscriptionResult (Js.join_space (text <$> segs)) segs)
        end
    end.

(** A segment or a fragment reduced to what the merger combines: start,
    end and text. *)
Definition Piece : Type := Q * Q * string.

Definition pieceOfSegment (s : ISegment) : Piece :=
  (startTime s, endTime s, text s).

Definition pieceOfFragment (f : RawFragment) : Piece :=
  (fragStartTime f, fragEndTime f, fragText f).

(** Two neighbours merged: the start of the first, the end of the second,
    the texts joined by one space. *)
Definition mergePieces (a b : Piece) : Piece :=
  (a.1.1, b.1.2, a.2 +:+ " " +:+ b.2).

(** A property of lists of pieces that survives the merging of two
    neighbours. *)
Definition mergeStable (P : list Piece -> Prop) : Prop :=
  forall l1 a b l2, P (l1 ++ a :: b :: l2) -> P (l1 ++ mergePieces a b :: l2).

(** The duration that the coarse loop tests, line 165. *)
Definition duration (s : ISegment) : Q := Js.sub (endTime s) (startTime s).

(** The count and the two ends of a list of pieces. *)
Definition sameExtent (n : nat) (first last_ : option Q) (l : list Piece) : Prop :=
  (length l <= n)%nat /\ (n <> 0%nat -> l <> []) /\
  (fun p : Piece => p.1.1) <$> head l = first /\
  (fun p : Piece => p.1.2) <$> last l = last_.

End TranscribeVideo.

(** ** More JavaScript primitives *)

Module JsMore.




(** [a.find(p)]: the first element that satisfies [p]. *)
Definition find {T : Type} (P : T -> Prop) `{forall x, Decision (P x)}
    (a : list T) : option T :=
  snd <$> list_find P a.

(** [a.splice(start, 1)] as a statement: the array without the element at
    [start]; a negative [start] counts from the end and is clamped at the
    front, and nothing is removed when [start] is at or past the end. *)
Definition splice1 {T : Type} (a : list T) (start : Z) : list T :=
  let len := Z.of_nat (length a) in
  let from := if (start <? 0)%Z then Z.max (len + start) 0 else Z.min start len in
  delete (Z.to_nat from) a.

(** A [Map] as the list of its entries in insertion order. *)
Definition Map_get (m : list (Z * Z)) (key : Z) : option Z :=
  snd <$> JsMore.find (fun e => e.1 = key) m.

Fixpoint Map_set (m : list (Z * Z)) (key value : Z) : list (Z * Z) :=
  match m with
  | [] => [(key, value)]
  | e :: m' => if decide (e.1 = key) then (key, value) :: m'
               else e :: Map_set m' key value
  end.

(** The line feed of a template literal. *)
Definition LF : string := String (ascii_of_nat 10) "".

End JsMore.

(** ** [TranscriptionController]: reading segments, subtitle timestamps *)

Module TranscriptionController.
Import QuestionController.

Definition getSegment (store : gmap string IVideo) (vid : string) (idx : Z)
  : Result ISegment :=
  rethrow "Failed to fetch segment: "
    match store !! vid with
    | None => Throw "Video not found"
    | Some video =>
        match JsMore.find (fun s => segmentIndex s = idx) (segments video) with
        | None => Throw "Segment not found"
        | Some segment => Ok segment
        end
    end.




End TranscriptionController.

(** ** [QuestionController]: listing, editing and counting questions *)

Module QuestionHandlers.
Import QuestionController.

Record QuestionList : Type := mkQuestionList {
  ql_questions : list IQuestion;
  ql_totalQuestions : Z;
  ql_segmentIndex : option Z
}.

(** [getQuestions]; an omitted query parameter is [None] ([shuffle]
    defaults to [false]). *)
Definition getQuestions (random : nat -> Q) (store : gmap string IVideo)
    (vid : string) (segIdx : option Z) (limit : option Z)
    (shuffle : option bool) (k : nat) : Result QuestionList * nat :=
  match store !! vid with
  | None => (rethrow "Failed to fetch questions: " (Throw "Video not found"), k)
  | Some video =>
      let all := default [] (questions video) in
      let filtered :=
        match segIdx with
        | Some g => filter (fun q => q_segmentIndex q = g) all
        | None => all
        end in
      let '(shuffled, k') :=
        if default false shuffle then shuffleArray random filtered k
        else (filtered, k) in
      let limited :=
        match limit with
        | Some n => if negb (n =? 0)%Z && (0 <? n)%Z then Js.slice0 shuffled n
                    else shuffled
        | None => shuffled
        end in
      (Ok (mkQuestionList limited (Z.of_nat (length limited)) segIdx), k')
  end.

Record SegmentQuestions : Type := mkSegmentQuestions {
  sq_questions : list IQuestion;
  sq_segmentIndex : Z;
  sq_segmentText : option string
}.

Definition getQuestionsBySegment (store : gmap string IVideo) (vid : string)
    (idx : Z) : Result SegmentQuestions :=
  rethrow "Failed to fetch questions for segment: "
    match store !! vid with
    | None => Throw "Video not found"
    | Some video =>
        let qs :=
          match questions video with
          | Some all => filter (fun q => q_segmentIndex q = idx) all
          | None => []
          end in
        let segment := JsMore.find (fun s => segmentIndex s = idx) (segments video) in
        Ok (mkSegmentQuestions qs idx (text <$> segment))
    end.

Section WithValidation.

(** [validate doc] is the message of the validation error with which
    [video.save()] rejects the document [doc], if it does; the schema's
    validators are Mongoose's and are not spelled out here. *)
Variable validate : IVideo -> option string.

(** [await video.save()] after the question list has been edited: the
    document is replaced as a whole, or the save throws. *)
Definition saveQuestions (store : gmap string IVideo) (vid : string)
    (video : IVideo) (qs : list IQuestion) : Result (gmap string IVideo) :=
  let doc := mkVideo (segments video) (Some qs) in
  match validate doc with
  | Some m => Throw m
  | None => Ok (<[vid := doc]> store)
  end.

(** [deleteQuestion]: the response and the store after the call. *)
Definition deleteQuestion (store : gmap string IVideo) (vid : string) (idx : Z)
  : Result string * gmap string IVideo :=
  match store !! vid with
  | None => (rethrow "Failed to delete question: " (Throw "Video not found"), store)
  | Some video =>
      match questions video with
      | None =>
          (rethrow "Failed to delete question: " (Throw "Question not found"), store)
      | Some qs =>
          if (Z.of_nat (length qs) <=? idx)%Z then
            (rethrow "Failed to delete question: " (Throw "Question not found"), store)
          else
            match saveQuestions store vid video (JsMore.splice1 qs idx) with
            | Throw m => (rethrow "Failed to delete question: " (Throw m), store)
            | Ok store' => (Ok "Question deleted successfully", store')
            end
      end
  end.

(** The body of [updateQuestion], a [Partial<IQuestion>]; the handler does
    not read a [segmentIndex] in it. *)
Record QuestionPatch : Type := mkPatch {
  p_question : option string;
  p_options : option (list string);
  p_correctAnswer : option Z;
  p_explanation : option string
}.

(** Lines 322-325 on a stored question. *)
Definition applyPatch (patch : QuestionPatch) (q : IQuestion) : IQuestion :=
  mkQuestion
    (match p_question patch with Some "" | None => question q | Some s => s end)
    (match p_options patch with Some o => o | None => options q end)
    (match p_correctAnswer patch with Some c => c | None => correctAnswer q end)
    (match p_explanation patch with
     | Some "" | None => explanation q
     | Some e => Some e
     end)
    (q_segmentIndex q).

(** The first property that lines 322-325 would assign, if any. *)
Definition firstAssigned (patch : QuestionPatch) : option string :=
  match p_question patch with
  | Some (String _ _) => Some "question"
  | _ =>
      match p_options patch with
      | Some _ => Some "options"
      | None =>
          match p_correctAnswer patch with
          | Some _ => Some "correctAnswer"
          | None =>
              match p_explanation patch with
              | Some (String _ _) => Some "explanation"
              | _ => None
              end
          end
      end
  end.

Record UpdateResponse : Type := mkUpdateResponse {
  ur_message : string;
  ur_question : option IQuestion
}.

(** [cannotSet p] is the message of the engine's [TypeError] for an
    assignment to property [p] of [undefined], which is what a negative
    index leads to. *)
Variable cannotSet : string -> string.

Definition updateQuestion (store : gmap string IVideo) (vid : string) (idx : Z)
    (patch : QuestionPatch) : Result UpdateResponse * gmap string IVideo :=
  match store !! vid with
  | None => (rethrow "Failed to update question: " (Throw "Video not found"), store)
  | Some video =>
      match questions video with
      | None =>
          (rethrow "Failed to update question: " (Throw "Question not found"), store)
      | Some qs =>
          if (Z.of_nat (length qs) <=? idx)%Z then
            (rethrow "Failed to update question: " (Throw "Question not found"), store)
          else
            match Js.index qs idx with
            | Some q =>
                let q' := applyPatch patch q in
                match saveQuestions store vid video (<[Z.to_nat idx := q']> qs) with
                | Throw m => (rethrow "Failed to update question: " (Throw m), store)
                | Ok store' =>
                    (Ok (mkUpdateResponse "Question updated successfully" (Some q')),
                     store')
                end
            | None =>
                match firstAssigned patch with
                | Some p =>
                    (rethrow "Failed to update question: " (Throw (cannotSet p)), store)
                | None =>
                    match saveQuestions store vid video qs with
                    | Throw m =>
                        (rethrow "Failed to update question: " (Throw m), store)
                    | Ok store' =>
                        (Ok (mkUpdateResponse "Question updated successfully" None),
                         store')
                    end
                end
            end
      end
  end.

End WithValidation.

(** A video document together with the status field that
    [getQuestionStats] reports. *)
Record VideoRecord : Type := mkVideoRecord {
  vr_video : IVideo;
  questionGenerationStatus : string
}.

Record SegmentCount : Type := mkSegmentCount {
  sc_segmentIndex : Z;
  sc_questionCount : Z
}.

Record QuestionStats : Type := mkQuestionStats {
  qs_totalQuestions : Z;
  qs_questionsBySegment : list SegmentCount;
  qs_averageQuestionsPerSegment : Q;
  qs_generationStatus : string
}.

(** The callback of [questions.forEach], lines 389-392. *)
Definition countStep (segmentGroups : list (Z * Z)) (q : IQuestion) : list (Z * Z) :=
  let count :=
    match JsMore.Map_get segmentGroups (q_segmentIndex q) with
    | Some c => if (c =? 0)%Z then 0%Z else c
    | None => 0%Z
    end in
  JsMore.Map_set segmentGroups (q_segmentIndex q) (count + 1).

Definition segmentGroups (qs : list IQuestion) : list (Z * Z) :=
  fold_left countStep qs [].

Definition averagePerSegment (total groups : Z) : Q :=
  if (0 <? groups)%Z
  then inject_Z (Js.Math_round (inject_Z total / inject_Z groups * 10)) / 10
  else 0.

Definition getQuestionStats (store : gmap string VideoRecord) (vid : string)
  : Result QuestionStats :=
  rethrow "Failed to fetch question stats: "
    match store !! vid with
    | None => Throw "Video not found"
    | Some record =>
        let qs := default [] (questions (vr_video record)) in
        let total := Z.of_nat (length qs) in
        let bySegment :=
          (fun e : Z * Z => mkSegmentCount e.1 e.2) <$> segmentGroups qs in
        Ok (mkQuestionStats total bySegment
              (averagePerSegment total (Z.of_nat (length bySegment)))
              (questionGenerationStatus record))
    end.

End QuestionHandlers.

(** ** [ErrorHandler]: the error middleware *)

Module ErrorHandler.

(** The fields of a thrown value that the middleware reads.  [code] is a
    number for a database error and a string for an upload error. *)
Record JsError : Type := mkJsError {
  e_message : option string;
  e_httpCode : option Z;
  e_name : option string;
  e_code : option (Z + string)
}.

(** [new Error(message)]. *)
Definition plainError (message : string) : JsError :=
  mkJsError (Some message) None (Some "Error") None.

(** What [response.status(...).json(...)] sends. *)
Record ErrorResponse : Type := mkErrorResponse {
  statusCode : Z;
  success : bool;
  errorCode : string;
  errorMessage : option string;
  timestamp : string;
  path : string
}.

Definition nameIs (e : JsError) (n : string) : bool :=
  match e_name e with Some m => String.eqb m n | None => false end.

Definition codeIsString (e : JsError) (c : string) : bool :=
  match e_code e with Some (inr s) => String.eqb s c | _ => false end.

Definition codeIsNumber (e : JsError) (c : Z) : bool :=
  match e_code e with Some (inl n) => (n =? c)%Z | _ => false end.

(** [error(error, request, response, next)]; [now] is
    [new Date().toISOString()] and [url] is [request.url]. *)
Definition error (now url : string) (e : JsError) : ErrorResponse :=
  let '(status, message, code) :=
    if Js.truthy (e_httpCode e) then
      (default 0%Z (e_httpCode e), e_message e, "INTERNAL_ERROR")
    else if nameIs e "ValidationError" then
      (400%Z, Some "Validation Error", "VALIDATION_ERROR")
    else if nameIs e "CastError" then
      (400%Z, Some "Invalid ID format", "INVALID_ID")
    else if codeIsNumber e 11000 then
      (409%Z, Some "Duplicate entry", "DUPLICATE_ENTRY")
    else if nameIs e "MongooseError" then
      (500%Z, Some "Database error", "DATABASE_ERROR")
    else
      match e_message e with
      | Some (String _ _ as m) => (500%Z, Some m, "INTERNAL_ERROR")
      | _ => (500%Z, Some "Internal Server Error", "INTERNAL_ERROR")
      end in
  let '(status, message, code) :=
    if codeIsString e "LIMIT_FILE_SIZE" then
      (413%Z, Some "File too large", "FILE_TOO_LARGE")
    else if codeIsString e "LIMIT_UNEXPECTED_FILE" then
      (400%Z, Some "Unexpected file field", "UNEXPECTED_FILE")
    else (status, message, code) in
  mkErrorResponse status false code message now url.

(** What the client receives when a handler's result is a thrown
    [Error]. *)
Definition respond {A : Type} (now url : string) (r : Result A)
  : A + ErrorResponse :=
  match r with
  | Ok a => inl a
  | Throw m => inr (error now url (plainError m))
  end.

End ErrorHandler.

(** ** [QuestionGenerationService] *)

Module QuestionGenerationService.

(** [private questionsPerSegment: number = 3] *)
Definition questionsPerSegment : Z := 3.

(** One entry of the [questions] array of the model's JSON answer.  Its
    fields have the types that the prompt asks for, or are missing. *)
Record RawQuestion : Type := mkRawQuestion {
  rq_question : option string;
  rq_options : option (list string);
  rq_correct_answer : option Z;
  rq_explanation : option string
}.

(** The parsed JSON answer; [None] stands for a [questions] field that is
    missing or is not an array. *)
Record LlmJson : Type := mkLlmJson {
  j_questions : option (list RawQuestion)
}.

(** Lines 151-159: the [map] and the [filter] on one raw question. *)
Definition convertQuestion (segIdx : Z) (q : RawQuestion) : option IQuestion :=
  let opts := default [] (rq_options q) in
  match rq_question q with
  | Some (String _ _ as text) =>
      if (length opts =? 4)%nat then
        Some (mkQuestion text opts
                (match rq_correct_answer q with Some c => c | None => 0%Z end)
                (Some (Js.str_or (rq_explanation q) ""))
                segIdx)
      else None
  | _ => None
  end.

Definition generateMockQuestions (segment : ISegment) : list IQuestion :=
  Js.slice0
    [ mkQuestion
        ("What is the main topic discussed in segment " +:+
           pretty (segmentIndex segment + 1)%Z +:+ "?")
        [ "Technical implementation details";
          "General overview and introduction";
          "Practical applications and examples";
          "Summary and conclusions" ]
        1 (Some "This question tests understanding of the segment's primary focus.")
        (segmentIndex segment);
      mkQuestion
        "Which concept is emphasized in this part of the content?"
        [ "Historical background"; "Current methodologies";
          "Future predictions"; "Key principles and fundamentals" ]
        3 (Some "The segment focuses on explaining fundamental concepts.")
        (segmentIndex segment);
      mkQuestion
        "What type of information is provided in this segment?"
        [ "Statistical data only"; "Theoretical concepts with examples";
          "Personal opinions"; "Marketing content" ]
        1 (Some "The content combines theory with practical examples for better understanding.")
        (segmentIndex segment) ]
    questionsPerSegment.

Section WithModel.

(** [extractJson response] is what [response.match(/\{[\s\S]*\}/)]
    followed by [JSON.parse] yields, [None] when there is no match or the
    parse throws.  [llm k] is the outcome of the [k]-th call of
    [callLocalLLM]: the model's text, or the message of the error. *)
Variable extractJson : string -> option LlmJson.
Variable llm : nat -> Result string.

Definition parseQuestions (response : string) (segIdx : Z) : list IQuestion :=
  match extractJson response with
  | None => []
  | Some parsed =>
      match j_questions parsed with
      | None => []
      | Some raw => omap (convertQuestion segIdx) raw
      end
  end.

(** [k] counts the calls of the model made so far. *)
Definition generateQuestionsForSegment (segment : ISegment) (k : nat)
  : list IQuestion * nat :=
  match llm k with
  | Ok response =>
      match parseQuestions response (segmentIndex segment) with
      | [] => (generateMockQuestions segment, S k)
      | qs => (qs, S k)
      end
  | Throw _ => (generateMockQuestions segment, S k)
  end.

(** One iteration of [for (const segment of segments)]. *)
Definition generateStep (st : list IQuestion * nat) (segment : ISegment)
  : list IQuestion * nat :=
  let '(qs, k') := generateQuestionsForSegment segment (snd st) in
  (fst st ++ qs, k').

Definition generateQuestions (segs : list ISegment) (k : nat)
  : list IQuestion * nat :=
  fold_left generateStep segs ([], k).

End WithModel.

End QuestionGenerationService.

(** ** Auxiliary definitions for the further code *)

Module HandlersSpec.
Import QuestionController QuizSpec QuestionHandlers.

(** The questions that [getQuestions] chooses from: all the stored ones,
    or those of the requested segment. *)
Definition listed (video : IVideo) (segIdx : option Z) : list IQuestion :=
  match segIdx with
  | Some g => groupOf (default [] (questions video)) g
  | None => default [] (questions video)
  end.

(** routing-controllers' [NotFoundError]: an [HttpError] whose [httpCode]
    is 404. *)
Definition notFoundError (message : string) : ErrorHandler.JsError :=
  ErrorHandler.mkJsError (Some message) (Some 404%Z) (Some "NotFoundError") None.

(** A validator that accepts every document. *)
Definition acceptAll (doc : IVideo) : option string := None.

(** V8's message for an assignment to a property of [undefined]. *)
Definition v8CannotSet (p : string) : string :=
  "Cannot set properties of undefined (setting '" +:+ p +:+ "')".

Definition sumZ (l : list Z) : Z := foldr Z.add 0%Z l.

(** The per-answer record that the grading loop pushes for a submitted
    pair, if it pushes one. *)
Definition recordOf (stored : list IQuestion) (a : QuizAnswer)
  : option AnswerResult :=
  (fun q =>
     mkAnswerResult (questionIndex a) (question q) (selectedAnswer a)
       (correctAnswer q) (selectedAnswer a =? correctAnswer q)%Z
       (Js.str_or (explanation q) "No explanation provided"))
  <$> Js.index stored (questionIndex a).




(** What every generated question satisfies. *)
Definition wellFormed (q : IQuestion) : Prop :=
  question q <> "" /\ length (options q) = 4%nat /\ is_Some (explanation q).

(** A model that is never reachable, and a JSON extractor that finds
    nothing. *)
Definition llmDown (k : nat) : Result string :=
  Throw "LLM service not available. Make sure Ollama is running.".
Definition noJson (response : string) : option QuestionGenerationService.LlmJson :=
  None.

Definition keys (m : list (Z * Z)) : list Z := fst <$> m.

End HandlersSpec.

(** * Properties of the double-precision arithmetic *)

Module NumberFacts.
Import Js.
Local Open Scope Q_scope.

Lemma roundEven_floor x : (Qfloor x <= roundEven x <= Qfloor x + 1)%Z.
Proof.
  unfold roundEven. destruct (Qcompare _ _); [destruct (Z.even _)|..]; lia.
Qed.

Lemma roundEven_error x : Qabs (inject_Z (roundEven x) - x) <= 1 # 2.
Proof.
  pose proof (Qfloor_le x) as H1. pose proof (Qlt_floor x) as H2.
  rewrite inject_Z_plus in H2. change (inject_Z 1) with 1 in H2.
  apply Qabs_Qle_condition. unfold roundEven.
  destruct (Qcompare (x - inject_Z (Qfloor x)) (1 # 2)) eqn:E.
  - apply Qeq_alt in E. destruct (Z.even (Qfloor x)).
    + lra.
    + rewrite inject_Z_plus. change (inject_Z 1) with 1. lra.
  - apply Qlt_alt in E. lra.
  - apply Qgt_alt in E. rewrite inject_Z_plus. change (inject_Z 1) with 1. lra.
Qed.

Lemma roundEven_le_Z x K : x <= inject_Z K -> (roundEven x <= K)%Z.
Proof.
  intros H. pose proof (Qfloor_le x) as H1.
  pose proof (roundEven_floor x) as [_ Hu].
  destruct (Z_lt_le_dec (Qfloor x) K) as [Hlt|Hge]; [lia|].
  assert (HK : inject_Z K <= inject_Z (Qfloor x)) by (rewrite <- Zle_Qle; exact Hge).
  unfold roundEven.
  destruct (Qcompare (x - inject_Z (Qfloor x)) (1 # 2)) eqn:E.
  - apply Qeq_alt in E. lra.
  - assert (H0 : inject_Z (Qfloor x) <= inject_Z K) by lra.
    rewrite <- Zle_Qle in H0. exact H0.
  - apply Qgt_alt in E. lra.
Qed.


Lemma two_pow_pos e : 0 < 2 ^ e.
Proof. apply Qpower_0_lt. reflexivity. Qed.

Lemma two_pow_Z n : (0 <= n)%Z -> 2 ^ n == inject_Z (2 ^ n).
Proof. intros H. symmetry. exact (Zpower_Qpower 2 n H). Qed.

Lemma binade_le x : ~ x == 0 -> 2 ^ binade x <= Qabs x.
Proof.
  intros Hx. unfold binade.
  set (l := (Z.log2 (Z.abs (Qnum x)) - Z.log2 (Z.pos (Qden x)))%Z).
  destruct (Qle_bool (2 ^ l) (Qabs x)) eqn:E; [apply Qle_bool_iff; exact E|].
  clear E. subst l.
  destruct x as [n d]. cbn [Qnum Qden Qabs].
  assert (Hn : (0 < Z.abs n)%Z).
  { destruct n; simpl; try lia. exfalso. apply Hx. reflexivity. }
  pose proof (Z.log2_spec (Z.abs n) Hn) as [Ha _].
  pose proof (Z.log2_spec (Z.pos d) ltac:(lia)) as [_ Hb].
  pose proof (Z.log2_nonneg (Z.abs n)) as Ha0.
  pose proof (Z.log2_nonneg (Z.pos d)) as Hb0.
  set (a := Z.log2 (Z.abs n)) in *. set (b := Z.log2 (Z.pos d)) in *.
  replace (a - b - 1)%Z with (a - (b + 1))%Z by lia.
  rewrite Qpower_minus by discriminate.
  rewrite (two_pow_Z a), (two_pow_Z (b + 1)) by lia.
  assert (Hpa : (0 < 2 ^ a)%Z) by (apply Z.pow_pos_nonneg; lia).
  assert (Hpb : (0 < 2 ^ (b + 1))%Z) by (apply Z.pow_pos_nonneg; lia).
  apply Qle_shift_div_r; [rewrite Zlt_Qlt in Hpb; exact Hpb|].
  unfold Qle, Qmult, inject_Z. simpl. nia.
Qed.

Lemma ulpExponent_le x E :
  ~ x == 0 -> (-1074 <= E)%Z -> Qabs x < 2 ^ (E + 53) -> (ulpExponent x <= E)%Z.
Proof.
  intros Hx HE Hb. unfold ulpExponent.
  pose proof (binade_le x Hx) as Hl.
  assert (H : 2 ^ binade x < 2 ^ (E + 53)) by (eapply Qle_lt_trans; eassumption).
  apply Qpower_lt_compat_l_inv in H; [lia|reflexivity].
Qed.

Lemma double_eq x :
  ~ x == 0 ->
  double x == inject_Z (roundEven (x / 2 ^ ulpExponent x)) * 2 ^ ulpExponent x.
Proof.
  intros Hx. unfold double.
  destruct (Qeq_bool x 0) eqn:E; [apply Qeq_bool_iff in E; contradiction|].
  apply Qred_correct.
Qed.

Lemma double_0 x : x == 0 -> double x = 0.
Proof.
  intros Hx. unfold double. apply Qeq_bool_iff in Hx. now rewrite Hx.
Qed.

(** The rounding error is at most half a unit in the last place. *)
Lemma double_near x E :
  (-1074 <= E)%Z -> Qabs x < 2 ^ (E + 53) ->
  Qabs (double x - x) <= 2 ^ E * (1 # 2).
Proof.
  intros HE Hb.
  pose proof (two_pow_pos E) as HpE.
  destruct (Qeq_dec x 0) as [Hx|Hx].
  { rewrite (double_0 x Hx), Hx. apply Qabs_Qle_condition.
    clear Hb. generalize dependent (2 ^ E). intros; lra. }
  pose proof (ulpExponent_le x E Hx HE Hb) as He.
  rewrite (double_eq x Hx).
  set (e := ulpExponent x) in *.
  pose proof (two_pow_pos e) as Hpe.
  pose proof (roundEven_error (x / 2 ^ e)) as Hr.
  assert (Hle : 2 ^ e <= 2 ^ E) by (apply Qpower_le_compat_l; [exact He|discriminate]).
  assert (Hx' : x == x / 2 ^ e * 2 ^ e).
  { field. intros H0. rewrite H0 in Hpe. discriminate Hpe. }
  apply Qabs_Qle_condition in Hr. apply Qabs_Qle_condition.
  set (m := inject_Z (roundEven (x / 2 ^ e))) in *. clearbody m.
  set (s := x / 2 ^ e) in *. clearbody s.
  set (p := 2 ^ e) in *. clearbody p.
  set (pE := 2 ^ E) in *. clearbody pE.
  assert (H1 : (m - s) * p <= (1 # 2) * p) by (apply Qmult_le_compat_r; lra).
  assert (H2 : - (1 # 2) * p <= (m - s) * p) by (apply Qmult_le_compat_r; lra).
  lra.
Qed.



Lemma double_nonpos x : x <= 0 -> double x <= 0.
Proof.
  intros H. destruct (Qeq_dec x 0) as [Hx|Hx].
  { rewrite (double_0 x Hx). apply Qle_refl. }
  rewrite (double_eq x Hx).
  pose proof (two_pow_pos (ulpExponent x)) as Hp.
  assert (Hm : (roundEven (x / 2 ^ ulpExponent x) <= 0)%Z).
  { apply roundEven_le_Z. apply Qle_shift_div_r; [exact Hp|].
    change (inject_Z 0) with 0. rewrite Qmult_0_l. exact H. }
  rewrite Zle_Qle in Hm. change (inject_Z 0) with 0 in Hm.
  revert Hm Hp. generalize (inject_Z (roundEven (x / 2 ^ ulpExponent x))).
  generalize (2 ^ ulpExponent x). intros p m Hm Hp.
  assert (H1 : m * p <= 0 * p) by (apply Qmult_le_compat_r; lra). lra.
Qed.

(** A difference that the double subtraction reports as 300 or more is
    at least 300 up to half a unit in the last place of 300. *)
Lemma double_reaches_300 x :
  300 <= double x -> 300 - (1 # 35184372088832) <= x.
Proof.
  intros H. destruct (Qlt_le_dec x 512) as [Hlt|Hge]; [|lra].
  destruct (Qlt_le_dec 0 x) as [Hpos|Hneg].
  - assert (Hb : Qabs x < 2 ^ (-44 + 53)).
    { rewrite Qabs_pos by lra. exact Hlt. }
    pose proof (double_near x (-44) ltac:(lia) Hb) as Hn.
    apply Qabs_Qle_condition in Hn.
    change (2 ^ (-44)) with (1 # 17592186044416) in Hn. lra.
  - pose proof (double_nonpos x Hneg). lra.
Qed.

End NumberFacts.

(** * Properties of the segment merger *)

Module MergerFacts.
Import TranscriptionService MergerSpec.

Lemma coarseStep_blank st f : fragText f = "" -> coarseStep st f = st.
Proof. intros H. unfold coarseStep. now rewrite H. Qed.

Lemma coarseStep_kept st f :
  fragText f <> "" ->
  coarseStep st f =
    match cs_current st with
    | None =>
        mkCoarse (cs_segments st)
          (Some (mkSegment (fragStartTime f) (fragEndTime f) (fragText f) (cs_index st)))
          (cs_index st)
    | Some cur =>
        if Qle_bool segmentDuration (Js.sub (endTime cur) (startTime cur)) then
          mkCoarse (cs_segments st ++ [cur])
            (Some (mkSegment (fragStartTime f) (fragEndTime f) (fragText f)
                             (cs_index st + 1)))
            (cs_index st + 1)
        else
          mkCoarse (cs_segments st)
            (Some (mkSegment (startTime cur) (fragEndTime f)
                             (text cur +:+ " " +:+ fragText f) (segmentIndex cur)))
            (cs_index st)
    end.
Proof.
  intros H. unfold coarseStep.
  destruct (String.eqb_spec (fragText f) "") as [E|_]; [contradiction|reflexivity].
Qed.

Lemma coarse_inv_step st f : coarse_inv st -> coarse_inv (coarseStep st f).
Proof.
  intros Hinv.
  destruct (String.eqb_spec (fragText f) "") as [E|E].
  - now rewrite coarseStep_blank.
  - rewrite coarseStep_kept by assumption.
    unfold coarse_inv in *.
    destruct (cs_current st) as [cur|]; simpl.
    + destruct (Qle_bool _ _); simpl; [|assumption].
      rewrite length_app. simpl. lia.
    + destruct Hinv as [-> ->]. reflexivity.
Qed.

Lemma coarse_inv_fold fs st :
  coarse_inv st -> coarse_inv (fold_left coarseStep fs st).
Proof.
  revert st. induction fs as [|f fs IH]; intros st H; simpl; [assumption|].
  apply IH, coarse_inv_step, H.
Qed.

Lemma coarse_inv_loop fs : coarse_inv (fold_left coarseStep fs coarseInit).
Proof. apply coarse_inv_fold. split; reflexivity. Qed.

Lemma coarsePass_snoc fs f :
  coarsePass (fs ++ [f]) =
    coarseFlush (coarseStep (fold_left coarseStep fs coarseInit) f).
Proof. unfold coarsePass. now rewrite fold_left_app. Qed.

(** The loop state can be read back from the flushed list. *)
Lemma coarseFlush_nil st :
  coarse_inv st -> coarseFlush st = [] ->
  cs_segments st = [] /\ cs_current st = None /\ cs_index st = 0%Z.
Proof.
  unfold coarse_inv, coarseFlush. destruct (cs_current st) as [cur|].
  - intros _ H. destruct (cs_segments st); discriminate H.
  - intros [H1 H2] _. auto.
Qed.

Lemma coarseFlush_snoc st pushed cur :
  coarse_inv st -> coarseFlush st = pushed ++ [cur] ->
  cs_segments st = pushed /\ cs_current st = Some cur /\
  cs_index st = Z.of_nat (length pushed).
Proof.
  unfold coarse_inv, coarseFlush. destruct (cs_current st) as [c|].
  - intros Hi H. apply app_inj_tail in H as [E1 E2]. subst c.
    rewrite E1 in Hi. auto.
  - intros [-> _] H. destruct pushed; discriminate H.
Qed.

Lemma coarsePass_single f :
  fragText f <> "" -> coarsePass [f] = [openSegment f 0].
Proof.
  intros H. unfold coarsePass. simpl. rewrite coarseStep_kept by assumption.
  reflexivity.
Qed.

(** ** Re-indexing *)

Lemma reindex_snoc l s :
  reindex (l ++ [s]) = reindex l ++ [setIndex s (Z.of_nat (length l))].
Proof.
  unfold reindex. rewrite imap_app. simpl.
  rewrite Nat.add_0_r. reflexivity.
Qed.

Lemma reindex_length l : length (reindex l) = length l.
Proof. apply length_imap. Qed.

Lemma reindex_lookup l i :
  reindex l !! i = (fun s => setIndex s (Z.of_nat i)) <$> l !! i.
Proof. unfold reindex. now rewrite list_lookup_imap. Qed.

Lemma reindex_indices l : segmentIndex <$> reindex l = indicesFromZero (length l).
Proof.
  apply list_eq. intros i. unfold indicesFromZero.
  rewrite !list_lookup_fmap, reindex_lookup.
  destruct (l !! i) as [s|] eqn:E; simpl.
  - apply lookup_lt_Some in E. rewrite lookup_seq_lt by assumption. reflexivity.
  - apply lookup_ge_None in E. rewrite lookup_seq_ge by assumption. reflexivity.
Qed.

Lemma reindex_span l : span <$> reindex l = span <$> l.
Proof.
  apply list_eq. intros i.
  rewrite !list_lookup_fmap, reindex_lookup.
  now destruct (l !! i).
Qed.

Lemma reindex_inv_snoc l pushed cur :
  reindex l = pushed ++ [cur] ->
  exists l' c, l = l' ++ [c] /\ reindex l' = pushed /\
               cur = setIndex c (Z.of_nat (length l')).
Proof.
  intros H. destruct (decide (l = [])) as [->|Hne].
  - destruct pushed; discriminate H.
  - destruct (exists_last Hne) as (l' & c & ->).
    rewrite reindex_snoc in H. apply app_inj_tail in H as [H1 H2].
    exists l', c. auto.
Qed.

(** ** The minimum-length loop *)

Lemma minLoop_snoc segs s :
  minLoop (segs ++ [s]) = minFlush (minStep (fold_left minStep segs (mkMin [] None)) s).
Proof. unfold minLoop. now rewrite fold_left_app. Qed.

Lemma minStep_current st s : ms_current (minStep st s) <> None.
Proof.
  unfold minStep. destruct (ms_current st); [|discriminate].
  destruct (_ <? _)%nat; discriminate.
Qed.

Lemma min_fold_current segs st :
  ms_current st <> None -> ms_current (fold_left minStep segs st) <> None.
Proof.
  revert st. induction segs as [|s segs IH]; intros st H; simpl; [assumption|].
  apply IH, minStep_current.
Qed.

Lemma min_loop_state segs :
  let st := fold_left minStep segs (mkMin [] None) in
  match ms_current st with
  | None => segs = [] /\ ms_result st = []
  | Some _ => segs <> []
  end.
Proof.
  destruct segs as [|s segs]; simpl; [auto|].
  pose proof (min_fold_current segs (minStep (mkMin [] None) s)
                (minStep_current _ _)) as H.
  destruct (ms_current _); [discriminate | contradiction].
Qed.

Lemma minLoop_nonempty segs : segs <> [] -> minLoop segs <> [].
Proof.
  intros Hne. pose proof (min_loop_state segs) as H. unfold minLoop, minFlush.
  simpl in H. destruct (ms_current _) as [c|].
  - intros E. destruct (ms_result _); discriminate E.
  - destruct H as [H _]. contradiction.
Qed.

Lemma minLoop_state_snoc segs l c :
  minLoop segs = l ++ [c] ->
  ms_result (fold_left minStep segs (mkMin [] None)) = l /\
  ms_current (fold_left minStep segs (mkMin [] None)) = Some c.
Proof.
  pose proof (min_loop_state segs) as H. unfold minLoop, minFlush. simpl in H.
  destruct (ms_current _) as [c'|].
  - intros E. apply app_inj_tail in E as [-> ->]. auto.
  - destruct H as [_ ->]. intros E. destruct l; discriminate E.
Qed.

Lemma minStep_merge st cur s :
  ms_current st = Some cur -> (wordCount (text s) < minWords)%nat ->
  minStep st s = mkMin (ms_result st) (Some (mergeInto cur s)).
Proof.
  intros E Hw. unfold minStep. rewrite E.
  apply Nat.ltb_lt in Hw. rewrite Hw. reflexivity.
Qed.

Lemma minStep_flush st cur s :
  ms_current st = Some cur -> (minWords <= wordCount (text s))%nat ->
  minStep st s = mkMin (ms_result st ++ [cur]) (Some s).
Proof.
  intros E Hw. unfold minStep. rewrite E.
  apply Nat.ltb_ge in Hw. rewrite Hw. reflexivity.
Qed.

Lemma minLoop_merge segs s l c :
  minLoop segs = l ++ [c] -> (wordCount (text s) < minWords)%nat ->
  minLoop (segs ++ [s]) = l ++ [mergeInto c s].
Proof.
  intros E Hw. rewrite minLoop_snoc.
  destruct (minLoop_state_snoc _ _ _ E) as [E1 E2].
  rewrite (minStep_merge _ c) by assumption. rewrite E1. reflexivity.
Qed.

Lemma minLoop_flush segs s :
  segs <> [] -> (minWords <= wordCount (text s))%nat ->
  minLoop (segs ++ [s]) = minLoop segs ++ [s].
Proof.
  intros Hne Hw. rewrite minLoop_snoc.
  pose proof (min_loop_state segs) as H. simpl in H. unfold minLoop.
  destruct (ms_current (fold_left minStep segs _)) as [c|] eqn:E.
  - rewrite (minStep_flush _ c) by assumption.
    unfold minFlush. rewrite E. reflexivity.
  - destruct H as [H _]. contradiction.
Qed.

(** ** Word counts *)

Lemma split_space_nonempty s : Js.split_space s <> [].
Proof.
  destruct s as [|c s]; simpl; [discriminate|].
  destruct (Ascii.eqb c " "); [discriminate|].
  destruct (Js.split_space s); discriminate.
Qed.

Lemma split_space_append a b :
  Js.split_space (a +:+ " " +:+ b) = Js.split_space a ++ Js.split_space b.
Proof.
  induction a as [|c a IH]; simpl; [reflexivity|].
  destruct (Ascii.eqb c " ").
  - simpl in IH. rewrite IH. reflexivity.
  - simpl in IH. rewrite IH.
    pose proof (split_space_nonempty a) as Hne.
    destruct (Js.split_space a); [contradiction|reflexivity].
Qed.

Lemma wordCount_append a b :
  wordCount (a +:+ " " +:+ b) = (wordCount a + wordCount b)%nat.
Proof. unfold wordCount. rewrite split_space_append. apply length_app. Qed.

Lemma longEnough_mergeInto c s : longEnough c -> longEnough (mergeInto c s).
Proof.
  unfold longEnough, mergeInto; simpl. rewrite wordCount_append. lia.
Qed.

Lemma drop1_snoc {A : Type} (l : list A) (x : A) :
  l <> [] -> drop 1 (l ++ [x]) = drop 1 l ++ [x].
Proof. destruct l; [contradiction|reflexivity]. Qed.

Lemma minLoop_tail_longEnough segs : Forall longEnough (drop 1 (minLoop segs)).
Proof.
  induction segs as [|s segs IH] using rev_ind; [constructor|].
  destruct (decide (segs = [])) as [->|Hne]; [constructor|].
  pose proof (minLoop_nonempty _ Hne) as HL.
  destruct (le_lt_dec minWords (wordCount (text s))) as [Hw|Hw].
  - rewrite minLoop_flush by assumption.
    rewrite drop1_snoc by assumption.
    apply Forall_app. split; [assumption|]. constructor; [exact Hw|constructor].
  - destruct (exists_last HL) as (l & c & E).
    rewrite (minLoop_merge _ _ _ _ E Hw). rewrite E in IH.
    destruct l as [|x l]; [constructor|].
    simpl in *. apply Forall_app in IH as [IH1 IH2].
    apply Forall_app. split; [assumption|].
    constructor; [|constructor]. apply longEnough_mergeInto.
    now inversion IH2.
Qed.

(** ** Time spans *)

Lemma ordered_merge l1 a b l2 :
  ordered (l1 ++ a :: b :: l2) -> ordered (l1 ++ (fst a, snd b) :: l2).
Proof.
  induction l1 as [|x l1 IH]; simpl.
  - intros (_ & Ha & _ & _ & Hl2).
    inversion Ha as [|? ? Hab Hal2]; subst.
    repeat split; assumption.
  - intros (Hx & Hall & Hrest). repeat split; [assumption| |auto].
    apply Forall_app in Hall as [H1 H2]. apply Forall_app. split; [assumption|].
    inversion H2 as [|? ? _ H3]; subst. inversion H3; subst.
    constructor; assumption.
Qed.

Lemma chronological_ordered l : chronological l -> ordered l.
Proof.
  intros [Hd Hs]. induction Hs as [|x l Hs IH Hx]; simpl; [exact I|].
  inversion Hd as [|? ? Hxx Hl]; subst.
  split; [assumption|]. split; [|auto].
  rewrite Forall_forall in *. intros y Hy.
  apply Qle_trans with (fst y); auto.
Qed.

Lemma ordered_diag l : ordered l -> Forall (fun x => (fst x <= snd x)%Q) l.
Proof.
  induction l as [|x l IH]; simpl; [constructor|].
  intros (H & _ & Hl). constructor; auto.
Qed.

Lemma keptFragments_cons f fs :
  keptFragments (f :: fs) =
    if String.eqb (fragText f) "" then keptFragments fs else f :: keptFragments fs.
Proof.
  unfold keptFragments. rewrite filter_cons.
  destruct (String.eqb_spec (fragText f) "") as [E|E];
    destruct (decide (fragText f <> "")); try reflexivity; contradiction.
Qed.

Lemma coarse_ordered_step st f rest :
  ordered ((span <$> coarseFlush st) ++ (fspan <$> keptFragments (f :: rest))) ->
  ordered ((span <$> coarseFlush (coarseStep st f)) ++ (fspan <$> keptFragments rest)).
Proof.
  rewrite keptFragments_cons.
  destruct (String.eqb_spec (fragText f) "") as [E|E].
  - now rewrite coarseStep_blank.
  - rewrite coarseStep_kept by assumption. unfold coarseFlush.
    destruct (cs_current st) as [cur|]; simpl.
    + destruct (Qle_bool _ _); simpl.
      * rewrite !fmap_app, <- !app_assoc. simpl. auto.
      * rewrite !fmap_app, <- !app_assoc. simpl.
        apply (ordered_merge _ (span cur) (fspan f)).
    + rewrite !fmap_app, <- !app_assoc. simpl. auto.
Qed.

Lemma coarse_ordered_fold fs st :
  ordered ((span <$> coarseFlush st) ++ (fspan <$> keptFragments fs)) ->
  ordered (span <$> coarseFlush (fold_left coarseStep fs st)).
Proof.
  revert st. induction fs as [|f fs IH]; intros st H; simpl.
  - simpl in H. now rewrite app_nil_r in H.
  - apply IH, coarse_ordered_step, H.
Qed.

Lemma coarsePass_ordered fs :
  timeConsistent fs -> ordered (span <$> coarsePass fs).
Proof. intros H. apply coarse_ordered_fold. exact H. Qed.

Lemma min_ordered_step st s rest :
  ordered ((span <$> minFlush st) ++ (span <$> s :: rest)) ->
  ordered ((span <$> minFlush (minStep st s)) ++ (span <$> rest)).
Proof.
  unfold minStep, minFlush.
  destruct (ms_current st) as [cur|]; simpl.
  - destruct (_ <? _)%nat; simpl.
    + rewrite !fmap_app, <- !app_assoc. simpl.
      apply (ordered_merge _ (span cur) (span s)).
    + rewrite !fmap_app, <- !app_assoc. simpl. auto.
  - rewrite !fmap_app, <- !app_assoc. simpl. auto.
Qed.

Lemma min_ordered_fold segs st :
  ordered ((span <$> minFlush st) ++ (span <$> segs)) ->
  ordered (span <$> minFlush (fold_left minStep segs st)).
Proof.
  revert st. induction segs as [|s segs IH]; intros st H; simpl.
  - simpl in H. now rewrite app_nil_r in H.
  - apply IH, min_ordered_step, H.
Qed.

Lemma ensureMinimumSegmentLength_ordered segs :
  ordered (span <$> segs) -> ordered (span <$> ensureMinimumSegmentLength segs).
Proof.
  intros H. unfold ensureMinimumSegmentLength. rewrite reindex_span.
  apply min_ordered_fold. exact H.
Qed.

(** The duration that the coarse loop tests is the double difference.  A
    running segment from 212.05 to 512.05 is 299.99999999999994 seconds long
    and is extended, although the two decimals differ by 300; one from 0.01
    to 300.01 is 300 seconds long and is closed, although the two doubles
    differ by less than 300. *)
Lemma coarse_pass_rounds_the_duration :
  length (coarsePass
            [ mkFragment (Some (Js.double (21205 # 100)))
                         (Some (Js.double (51205 # 100))) (Some "a");
              mkFragment (Some (Js.double (51205 # 100))) (Some 520%Q)
                         (Some "b") ]) = 1%nat /\
  length (coarsePass
            [ mkFragment (Some (Js.double (1 # 100)))
                         (Some (Js.double (30001 # 100))) (Some "a");
              mkFragment (Some (Js.double (30001 # 100))) (Some 310%Q)
                         (Some "b") ]) = 2%nat /\
  (Js.double (30001 # 100) - Js.double (1 # 100) < 300)%Q.
Proof. repeat split; vm_compute; reflexivity. Qed.

End MergerFacts.

(** * The claims about the segment merger *)

Module Merger.
Import TranscriptionService MergerSpec MergerFacts.

(** C1, as the code has it: on the fragments [(0,310,sixty words);
    (310,320,"b")] the coarse pass does split after the first fragment
    (its duration 310 reaches 300) and yields two coarse segments, but the
    minimum-length pass then appends the one-word second segment to the
    running first one, so the merger returns exactly one segment, from 0 to
    320, whose text is the sixty words followed by " b", with index 0. *)
Theorem example_merges_backward :
  coarsePass exampleFragments =
    [ mkSegment 0 310 sixtyWords 0; mkSegment 310 320 "b" 1 ] /\
  wordCount sixtyWords = 60%nat /\ wordCount "b" = 1%nat /\
  segmentTranscript (mkTranscript (Some exampleFragments)) =
    Ok [ mkSegment 0 320 (sixtyWords +:+ " b") 0 ].
Proof. repeat split; vm_compute; reflexivity. Qed.

(** C1 as stated fails: the merger does not return two segments on the
    example. *)
Lemma example_not_two_segments :
  ~ exists s1 s2,
      segmentTranscript (mkTranscript (Some exampleFragments)) = Ok [s1; s2].
Proof.
  intros (s1 & s2 & H). vm_compute in H. discriminate H.
Qed.

(** C4, as the code has it: the coarse pass of the merger, read one
    fragment at a time.  A fragment whose trimmed text is empty changes
    nothing; the first kept fragment opens segment 0; a later kept fragment
    opens a new segment exactly when the running segment's own duration
    (its end minus its start, as the double subtraction yields it) has
    reached 300 seconds, and otherwise its trimmed text is appended after a
    single space and the running segment's end becomes the fragment's end;
    the running segment is flushed at the end of the input.  Empty input
    yields empty output, and a single fragment whose trimmed text is not
    empty yields exactly one segment, whose text is the trimmed text of the
    fragment. *)
Theorem coarse_pass_behaviour :
  coarsePass [] = [] /\
  (forall fs f, fragText f = "" -> coarsePass (fs ++ [f]) = coarsePass fs) /\
  (forall fs f, fragText f <> "" -> coarsePass fs = [] ->
     coarsePass (fs ++ [f]) = [openSegment f 0]) /\
  (forall fs f pushed cur, fragText f <> "" ->
     coarsePass fs = pushed ++ [cur] ->
     (segmentDuration <= Js.sub (endTime cur) (startTime cur))%Q ->
     coarsePass (fs ++ [f]) =
       pushed ++ [cur; openSegment f (Z.of_nat (length pushed) + 1)]) /\
  (forall fs f pushed cur, fragText f <> "" ->
     coarsePass fs = pushed ++ [cur] ->
     (Js.sub (endTime cur) (startTime cur) < segmentDuration)%Q ->
     coarsePass (fs ++ [f]) = pushed ++ [extendSegment cur f]) /\
  segmentTranscript (mkTranscript (Some [])) = Ok [] /\
  (forall f, fragText f <> "" ->
     segmentTranscript (mkTranscript (Some [f])) = Ok [openSegment f 0]).
Proof.
  split; [reflexivity|].
  split.
  { intros fs f H. rewrite coarsePass_snoc, coarseStep_blank by assumption.
    reflexivity. }
  split.
  { intros fs f H E. rewrite coarsePass_snoc, coarseStep_kept by assumption.
    destruct (coarseFlush_nil _ (coarse_inv_loop fs) E) as (E1 & E2 & E3).
    rewrite E2, E1, E3. reflexivity. }
  split.
  { intros fs f pushed cur H E Hd.
    rewrite coarsePass_snoc, coarseStep_kept by assumption.
    destruct (coarseFlush_snoc _ _ _ (coarse_inv_loop fs) E) as (E1 & E2 & E3).
    rewrite E2, E1, E3.
    apply Qle_bool_iff in Hd. rewrite Hd.
    unfold coarseFlush; simpl. now rewrite <- app_assoc. }
  split.
  { intros fs f pushed cur H E Hd.
    rewrite coarsePass_snoc, coarseStep_kept by assumption.
    destruct (coarseFlush_snoc _ _ _ (coarse_inv_loop fs) E) as (E1 & E2 & E3).
    rewrite E2, E1, E3.
    destruct (Qle_bool segmentDuration (Js.sub (endTime cur) (startTime cur))) eqn:Hb.
    - apply Qle_bool_iff in Hb. exfalso. exact (Qlt_not_le _ _ Hd Hb).
    - reflexivity. }
  split; [reflexivity|].
  intros f H. unfold segmentTranscript; simpl.
  rewrite coarsePass_single by assumption. reflexivity.
Qed.

(** C4 as stated fails for a single fragment under both thresholds: one
    whose text is only white space yields no segment at all, and one whose
    text has white space around it yields a segment with the trimmed text,
    not the unchanged text. *)
Lemma single_fragment_text_not_kept :
  segmentTranscript (mkTranscript (Some [blankFragment])) = Ok [] /\
  segmentTranscript (mkTranscript (Some [paddedFragment])) =
    Ok [mkSegment 0 10 "hi" 0] /\
  frag_text paddedFragment <> Some "hi".
Proof. repeat split; try (vm_compute; reflexivity). discriminate. Qed.

Lemma coarse_pass_behaviour_witness :
  coarsePass ([paddedFragment] ++ [blankFragment]) = coarsePass [paddedFragment] /\
  coarsePass ([blankFragment] ++ [paddedFragment]) = [openSegment paddedFragment 0] /\
  coarsePass (exampleFragments ++ [paddedFragment]) =
    [mkSegment 0 310 sixtyWords 0] ++ [extendSegment (mkSegment 310 320 "b" 1) paddedFragment] /\
  coarsePass ([mkFragment (Some 0%Q) (Some 310%Q) (Some "a")] ++ [paddedFragment]) =
    [] ++ [mkSegment 0 310 "a" 0; openSegment paddedFragment (Z.of_nat 0 + 1)] /\
  segmentTranscript (mkTranscript (Some [paddedFragment])) =
    Ok [openSegment paddedFragment 0].
Proof.
  destruct coarse_pass_behaviour as (_ & H1 & H2 & H3 & H4 & _ & H5).
  split; [apply H1; reflexivity|].
  split; [apply H2; [vm_compute; discriminate | reflexivity]|].
  split; [apply H4; [vm_compute; discriminate | vm_compute; reflexivity | reflexivity]|].
  split; [apply H3; [vm_compute; discriminate | reflexivity | vm_compute; discriminate]|].
  apply H5. vm_compute; discriminate.
Defined.

(** C2, as the code has it: the minimum-length pass walks the coarse
    segments in order; the first one opens the running segment; each later
    one is tested on its own word count (pieces of a split on single
    spaces, empty pieces counted): with fewer than 50 words it is merged
    backward into the running segment, whose end time becomes its end time
    and whose text receives a space and its text, and with 50 words or more
    it flushes the running segment and opens a fresh one.  The result is
    re-indexed 0, 1, 2, ..., and every resulting segment other than the
    first has at least 50 words. *)
Theorem minimum_length_pass_behaviour :
  ensureMinimumSegmentLength [] = [] /\
  (forall s, ensureMinimumSegmentLength [s] = [setIndex s 0]) /\
  (forall segs s pushed cur,
     ensureMinimumSegmentLength segs = pushed ++ [cur] ->
     (wordCount (text s) < 50)%nat ->
     ensureMinimumSegmentLength (segs ++ [s]) = pushed ++ [mergeInto cur s]) /\
  (forall segs s,
     segs <> [] -> (50 <= wordCount (text s))%nat ->
     ensureMinimumSegmentLength (segs ++ [s]) =
       ensureMinimumSegmentLength segs ++
         [setIndex s (Z.of_nat (length (ensureMinimumSegmentLength segs)))]) /\
  (forall segs,
     segmentIndex <$> ensureMinimumSegmentLength segs =
       indicesFromZero (length (ensureMinimumSegmentLength segs))) /\
  (forall segs i s,
     ensureMinimumSegmentLength segs !! S i = Some s ->
     (50 <= wordCount (text s))%nat).
Proof.
  split; [reflexivity|]. split; [reflexivity|]. split.
  { intros segs s pushed cur E Hw. unfold ensureMinimumSegmentLength in *.
    fold (minLoop segs) in E. fold (minLoop (segs ++ [s])).
    apply reindex_inv_snoc in E as (l & c & El & Ep & Ec).
    rewrite (minLoop_merge _ _ _ _ El Hw), reindex_snoc, Ep, Ec.
    reflexivity. }
  split.
  { intros segs s Hne Hw. unfold ensureMinimumSegmentLength.
    fold (minLoop segs). fold (minLoop (segs ++ [s])).
    rewrite minLoop_flush by assumption.
    now rewrite reindex_snoc, reindex_length. }
  split.
  { intros segs. unfold ensureMinimumSegmentLength.
    rewrite reindex_length. apply reindex_indices. }
  intros segs i s H. unfold ensureMinimumSegmentLength in H.
  fold (minLoop segs) in H. rewrite reindex_lookup in H.
  destruct (minLoop segs !! S i) as [s'|] eqn:E; [|discriminate H].
  injection H as <-. simpl.
  pose proof (minLoop_tail_longEnough segs) as HF.
  rewrite Forall_lookup in HF. apply (HF i s').
  rewrite lookup_drop. exact E.
Qed.

Lemma minimum_length_pass_behaviour_witness :
  ensureMinimumSegmentLength (longThenShort) =
    [] ++ [mergeInto (mkSegment 0 310 sixtyWords 0) (mkSegment 310 320 "b" 1)] /\
  ensureMinimumSegmentLength (shortThenLong) =
    [mkSegment 0 300 "hi" 0; mkSegment 300 600 sixtyWords 1] /\
  (50 <= wordCount sixtyWords)%nat.
Proof.
  destruct minimum_length_pass_behaviour as (_ & _ & H3 & H4 & _ & H6).
  split.
  { apply (H3 [mkSegment 0 310 sixtyWords 0] (mkSegment 310 320 "b" 1) []);
      [reflexivity | vm_compute; lia]. }
  split.
  { apply (H4 [mkSegment 0 300 "hi" 0] (mkSegment 300 600 sixtyWords 1));
      [discriminate | vm_compute; lia]. }
  apply (H6 shortThenLong 0%nat (mkSegment 300 600 sixtyWords 1)).
  reflexivity.
Defined.

(** C2 as stated fails.  With a short coarse segment followed by a long
    one, accumulating until the running segment has 50 words merges the
    short one forward and gives one segment, whereas the code flushes the
    short one alone; with a long one followed by a short one, the stated
    pass flushes the long one and leaves the short one alone, whereas the
    code merges the short one backward. *)
Lemma minimum_length_pass_not_forward :
  ensureMinimumSegmentLength shortThenLong =
    [ mkSegment 0 300 "hi" 0; mkSegment 300 600 sixtyWords 1 ] /\
  specMinimumLengthPass shortThenLong =
    [ mkSegment 0 600 ("hi" +:+ " " +:+ sixtyWords) 0 ] /\
  ensureMinimumSegmentLength longThenShort =
    [ mkSegment 0 320 (sixtyWords +:+ " b") 0 ] /\
  specMinimumLengthPass longThenShort =
    [ mkSegment 0 310 sixtyWords 0; mkSegment 310 320 "b" 1 ] /\
  ensureMinimumSegmentLength shortThenLong <> specMinimumLengthPass shortThenLong /\
  ensureMinimumSegmentLength longThenShort <> specMinimumLengthPass longThenShort.
Proof.
  repeat split; try (vm_compute; reflexivity); vm_compute; discriminate.
Qed.

(** C3, as the code has it.  For every fragment array the merger accepts,
    the [segmentIndex] values of its output are 0, 1, 2, ... in order; and
    when no kept fragment (one whose trimmed text is not empty) ends
    before the start of itself or of an earlier kept fragment, every
    output segment has [endTime >= startTime]. *)
Theorem merger_output_invariant :
  (forall fs out,
     segmentTranscript (mkTranscript (Some fs)) = Ok out ->
     segmentIndex <$> out = indicesFromZero (length out)) /\
  (forall fs out,
     timeConsistent fs ->
     segmentTranscript (mkTranscript (Some fs)) = Ok out ->
     Forall (fun s => (startTime s <= endTime s)%Q) out).
Proof.
  split.
  - intros fs out H. injection H as <-. unfold ensureMinimumSegmentLength.
    rewrite reindex_length. apply reindex_indices.
  - intros fs out Hc H. injection H as <-.
    pose proof (ordered_diag _ (ensureMinimumSegmentLength_ordered _
                                  (coarsePass_ordered _ Hc))) as HF.
    rewrite Forall_fmap in HF. exact HF.
Qed.

Lemma merger_output_invariant_witness :
  timeConsistent exampleFragments /\
  segmentIndex <$> [mkSegment 0 320 (sixtyWords +:+ " b") 0] = indicesFromZero 1 /\
  Forall (fun s => (startTime s <= endTime s)%Q)
         [mkSegment 0 320 (sixtyWords +:+ " b") 0].
Proof.
  assert (Hc : timeConsistent exampleFragments).
  { vm_compute. repeat split; try discriminate; repeat constructor; discriminate. }
  destruct merger_output_invariant as [H1 H2].
  split; [exact Hc|]. split.
  - apply (H1 exampleFragments). vm_compute; reflexivity.
  - apply (H2 exampleFragments); [exact Hc | vm_compute; reflexivity].
Defined.

(** C3 as stated fails: the one-fragment array [(10, 5, "x")] is accepted
    and yields a segment that ends before it starts. *)
Lemma merger_output_end_before_start :
  segmentTranscript (mkTranscript (Some [backwardFragment])) =
    Ok [mkSegment 10 5 "x" 0] /\
  ~ Forall (fun s => (startTime s <= endTime s)%Q) [mkSegment 10 5 "x" 0].
Proof.
  split; [vm_compute; reflexivity|].
  intros H. inversion H as [|? ? Hle _]; subst. simpl in Hle.
  apply Qle_bool_iff in Hle. vm_compute in Hle. discriminate Hle.
Qed.

End Merger.


(** * Properties of the quiz assembler and grader *)

Module QuizFacts.
Import QuestionController QuizSpec.

(** ** Shuffling *)

Lemma swap_Permutation {T : Type} (a : list T) i j : Js.swap a i j ≡ₚ a.
Proof.
  unfold Js.swap.
  destruct (a !! i) as [x|] eqn:Ei; [|reflexivity].
  destruct (a !! j) as [y|] eqn:Ej; [|reflexivity].
  by apply Permutation_insert_swap.
Qed.

Lemma shuffleLoop_Permutation {T : Type} random i (a : list T) k :
  (shuffleLoop random i a k).1 ≡ₚ a.
Proof.
  revert a k. induction i as [|i IH]; intros a k; simpl; [reflexivity|].
  rewrite IH. apply swap_Permutation.
Qed.

Lemma shuffleArray_Permutation {T : Type} random (a : list T) k :
  (shuffleArray random a k).1 ≡ₚ a.
Proof. apply shuffleLoop_Permutation. Qed.


(** ** Slicing *)

Lemma slice0_submseteq {T : Type} (a : list T) n : Js.slice0 a n ⊆+ a.
Proof. unfold Js.slice0. apply submseteq_take. Qed.

Lemma slice0_length {T : Type} (a : list T) n :
  (0 <= n)%Z -> length (Js.slice0 a n) = Nat.min (Z.to_nat n) (length a).
Proof.
  intros H. unfold Js.slice0.
  destruct (Z.ltb_spec n 0) as [?|_]; [lia|].
  rewrite length_take. lia.
Qed.

Lemma slice0_all {T : Type} (a : list T) n :
  (Z.of_nat (length a) <= n)%Z -> Js.slice0 a n = a.
Proof.
  intros H. unfold Js.slice0.
  destruct (Z.ltb_spec n 0) as [?|_]; [lia|].
  apply take_ge. lia.
Qed.

(** ** The shape of a successful assembly *)

Lemma strip_indices (l : list IQuestion) :
  qq_question <$> imap (fun index q => mkQuizQuestion q (Z.of_nat index)) l = l.
Proof.
  apply list_eq. intros i. rewrite list_lookup_fmap, list_lookup_imap.
  by destruct (l !! i).
Qed.

Lemma assigned_indices (l : list IQuestion) :
  qq_questionIndex <$> imap (fun index q => mkQuizQuestion q (Z.of_nat index)) l =
    indicesFromZero (length l).
Proof.
  apply list_eq. intros i. unfold indicesFromZero.
  rewrite !list_lookup_fmap, list_lookup_imap.
  destruct (l !! i) as [q|] eqn:E; simpl.
  - apply lookup_lt_Some in E. by rewrite lookup_seq_lt.
  - apply lookup_ge_None in E. by rewrite lookup_seq_ge.
Qed.

Lemma generateQuiz_ok random now store vid video pool qps total shuffle k :
  store !! vid = Some video -> questions video = Some pool -> pool <> [] ->
  exists quiz k',
    generateQuiz random now None store vid qps total shuffle k = (Ok quiz, k') /\
    (qq_question <$> quiz_questions quiz)
      ≡ₚ (selectQuestions random pool (default 2%Z qps) total k).1 /\
    (shuffle = Some false ->
     qq_question <$> quiz_questions quiz =
       (selectQuestions random pool (default 2%Z qps) total k).1) /\
    quiz_totalQuestions quiz = Z.of_nat (length (quiz_questions quiz)) /\
    qq_questionIndex <$> quiz_questions quiz =
      indicesFromZero (length (quiz_questions quiz)).
Proof.
  intros Hv Hq Hne. unfold generateQuiz, findById. rewrite Hv, Hq.
  destruct pool as [|q0 pool']; [contradiction|].
  destruct (selectQuestions random (q0 :: pool') (default 2%Z qps) total k)
    as [sel k1] eqn:Esel.
  destruct (default true shuffle) eqn:Eshuffle.
  - pose proof (shuffleArray_Permutation random sel k1) as HP.
    destruct (shuffleArray random sel k1) as [sel' k2]. simpl in HP.
    eexists _, _. split; [reflexivity|]. simpl.
    rewrite strip_indices, assigned_indices, length_imap.
    repeat split; try done.
    intros ->. discriminate Eshuffle.
  - eexists _, _. split; [reflexivity|]. simpl.
    rewrite strip_indices, assigned_indices, length_imap.
    repeat split; done.
Qed.

Lemma generateQuiz_fails random now store vid qps total shuffle k :
  nothingToQuiz store vid ->
  generateQuiz random now None store vid qps total shuffle k =
    (Throw (match store !! vid with
            | None => "Failed to generate quiz: Video not found"
            | Some _ => "Failed to generate quiz: No questions available for this video"
            end), k).
Proof.
  unfold nothingToQuiz, generateQuiz, findById.
  destruct (store !! vid) as [video|]; [|reflexivity].
  intros [-> | ->]; reflexivity.
Qed.

Lemma generateQuiz_rejected random now m store vid qps total shuffle k :
  generateQuiz random now (Some m) store vid qps total shuffle k =
    (Throw ("Failed to generate quiz: " +:+ m), k).
Proof. reflexivity. Qed.

(** Whatever the handler throws carries its prefix. *)
Lemma generateQuiz_thrown random now rejection store vid qps total shuffle k m :
  (generateQuiz random now rejection store vid qps total shuffle k).1 = Throw m ->
  exists m', m = "Failed to generate quiz: " +:+ m'.
Proof.
  destruct rejection as [m0|].
  { rewrite generateQuiz_rejected. intros [= <-]. eauto. }
  destruct (store !! vid) as [video|] eqn:Hv.
  - destruct (questions video) as [[|q0 pool']|] eqn:Hq.
    + rewrite generateQuiz_fails by (unfold nothingToQuiz; rewrite Hv; by right).
      rewrite Hv. intros [= <-]. by exists "No questions available for this video".
    + destruct (generateQuiz_ok random now store vid video (q0 :: pool') qps total
                  shuffle k Hv Hq) as (quiz & k' & E & _); [done|].
      rewrite E. discriminate.
    + rewrite generateQuiz_fails by (unfold nothingToQuiz; rewrite Hv; by left).
      rewrite Hv. intros [= <-]. by exists "No questions available for this video".
  - rewrite generateQuiz_fails by (unfold nothingToQuiz; by rewrite Hv).
    rewrite Hv. intros [= <-]. by exists "Video not found".
Qed.

(** ** Selection of a total number of questions *)

Lemma selectQuestions_total random pool count K k :
  K <> 0%Z ->
  (selectQuestions random pool count (Some K) k).1 =
    Js.slice0 (shuffleArray random pool k).1 K.
Proof.
  intros HK. unfold selectQuestions, Js.truthy.
  destruct (Z.eqb_spec K 0) as [?|_]; [contradiction|]. simpl.
  by destruct (shuffleArray random pool k).
Qed.

Lemma selectQuestions_falsy random pool count total k :
  Js.truthy total = false ->
  selectQuestions random pool count total k =
    fold_left (perSegmentStep random pool count) (groupsOf pool) ([], k).
Proof. intros H. unfold selectQuestions. by rewrite H. Qed.

(** ** The distinct segment indices *)

Lemma Set_add_elem_of s x y : y ∈ Js.Set_add s x <-> y ∈ s \/ y = x.
Proof.
  unfold Js.Set_add. destruct (decide (x ∈ s)) as [Hin|Hin].
  - split; [auto|]. intros [H| ->]; assumption.
  - rewrite elem_of_app, list_elem_of_singleton. tauto.
Qed.

Lemma Set_add_NoDup s x : NoDup s -> NoDup (Js.Set_add s x).
Proof.
  intros H. unfold Js.Set_add. destruct (decide (x ∈ s)) as [Hin|Hin]; [done|].
  apply NoDup_app. repeat split; [done| |apply NoDup_singleton].
  intros y Hy ->%list_elem_of_singleton. contradiction.
Qed.

Lemma Set_fold_elem_of xs s y :
  y ∈ fold_left Js.Set_add xs s <-> y ∈ s \/ y ∈ xs.
Proof.
  revert s. induction xs as [|x xs IH]; intros s; simpl.
  - rewrite elem_of_nil. tauto.
  - rewrite IH, Set_add_elem_of, elem_of_cons. tauto.
Qed.

Lemma Set_fold_NoDup xs s : NoDup s -> NoDup (fold_left Js.Set_add xs s).
Proof.
  revert s. induction xs as [|x xs IH]; intros s H; simpl; [done|].
  apply IH, Set_add_NoDup, H.
Qed.

Lemma groupsOf_NoDup pool : NoDup (groupsOf pool).
Proof. apply Set_fold_NoDup, NoDup_nil_2. Qed.

Lemma groupsOf_elem_of pool g :
  g ∈ groupsOf pool <-> exists q, q ∈ pool /\ q_segmentIndex q = g.
Proof.
  unfold groupsOf, Js.Set_values. rewrite Set_fold_elem_of, elem_of_nil.
  rewrite list_elem_of_fmap. split.
  - intros [[]|(q & -> & Hq)]. eauto.
  - intros (q & Hq & <-). right. eauto.
Qed.

Lemma groupOf_empty pool g : g ∉ groupsOf pool -> groupOf pool g = [].
Proof.
  intros H. unfold groupOf.
  destruct (filter _ pool) as [|q l] eqn:E; [done|].
  exfalso. apply H, groupsOf_elem_of. exists q.
  assert (Hq : q ∈ filter (fun q => q_segmentIndex q = g) pool)
    by (rewrite E; left).
  apply list_elem_of_filter in Hq as [? ?]. auto.
Qed.

(** ** The per-segment loop *)

Lemma perSegmentStep_chunk random pool count acc k g :
  (0 <= count)%Z ->
  exists chunk k',
    perSegmentStep random pool count (acc, k) g = (acc ++ chunk, k') /\
    chunkOf pool count g chunk.
Proof.
  intros Hc. unfold perSegmentStep. simpl.
  pose proof (shuffleArray_Permutation random
                (filter (fun q => q_segmentIndex q = g) pool) k) as HP.
  destruct (shuffleArray random _ k) as [shuffled k']. simpl in HP.
  eexists _, _. split; [reflexivity|]. unfold chunkOf, groupOf. split.
  - rewrite <- HP. apply slice0_submseteq.
  - rewrite slice0_length by assumption. by rewrite HP.
Qed.

Lemma perSegment_fold random pool count groups acc k :
  (0 <= count)%Z ->
  exists chunks k',
    fold_left (perSegmentStep random pool count) groups (acc, k) =
      (acc ++ concat chunks, k') /\
    Forall2 (chunkOf pool count) groups chunks.
Proof.
  intros Hc. revert acc k.
  induction groups as [|g groups IH]; intros acc k; simpl.
  - exists [], k. simpl. rewrite app_nil_r. split; [done|constructor].
  - destruct (perSegmentStep_chunk random pool count acc k g Hc)
      as (chunk & k1 & -> & Hchunk).
    destruct (IH (acc ++ chunk) k1) as (chunks & k' & -> & Hchunks).
    exists (chunk :: chunks), k'. simpl. rewrite <- app_assoc.
    split; [done|]. by constructor.
Qed.

Lemma chunk_members pool count g chunk q :
  chunkOf pool count g chunk -> q ∈ chunk -> q_segmentIndex q = g.
Proof.
  intros [Hsub _] Hq.
  assert (Hin : q ∈ groupOf pool g).
  { eapply elem_of_submseteq; eauto. }
  unfold groupOf in Hin. by apply list_elem_of_filter in Hin as [? _].
Qed.

Lemma filter_all {A : Type} (P : A -> Prop) `{forall x, Decision (P x)} (l : list A) :
  (forall x, x ∈ l -> P x) -> filter P l = l.
Proof.
  induction l as [|x l IH]; intros HP; [done|].
  rewrite filter_cons_True by (apply HP; left).
  f_equal. apply IH. intros y Hy. apply HP. by right.
Qed.

Lemma filter_none {A : Type} (P : A -> Prop) `{forall x, Decision (P x)} (l : list A) :
  (forall x, x ∈ l -> ~ P x) -> filter P l = [].
Proof.
  induction l as [|x l IH]; intros HP; [done|].
  rewrite filter_cons_False by (apply HP; left).
  apply IH. intros y Hy. apply HP. by right.
Qed.

Lemma chunks_other pool count groups chunks g :
  Forall2 (chunkOf pool count) groups chunks -> g ∉ groups ->
  filter (fun q => q_segmentIndex q = g) (concat chunks) = [].
Proof.
  induction 1 as [|g0 chunk groups chunks Hc _ IH]; intros Hg; simpl; [done|].
  rewrite filter_app, IH by (intros ?; apply Hg; by right).
  rewrite app_nil_r. apply filter_none.
  intros q Hq E. apply Hg.
  rewrite <- E, (chunk_members _ _ _ _ _ Hc Hq). left.
Qed.

Lemma chunks_count pool count groups chunks g :
  NoDup groups -> Forall2 (chunkOf pool count) groups chunks -> g ∈ groups ->
  length (filter (fun q => q_segmentIndex q = g) (concat chunks)) =
    Nat.min (Z.to_nat count) (length (groupOf pool g)).
Proof.
  intros Hnd HF. revert Hnd.
  induction HF as [|g0 chunk groups chunks Hc HF IH]; intros Hnd Hg.
  - by apply elem_of_nil in Hg.
  - apply NoDup_cons in Hnd as [Hnotin Hnd]. simpl. rewrite filter_app, length_app.
    destruct (decide (g = g0)) as [->|Hne].
    + rewrite (chunks_other _ _ _ _ _ HF Hnotin). simpl.
      rewrite filter_all by (intros q Hq; eapply chunk_members; eauto).
      destruct Hc as [_ ->]. lia.
    + rewrite filter_none.
      * simpl. apply IH; [done|]. apply elem_of_cons in Hg as [?|?]; done.
      * intros q Hq E. apply Hne. by rewrite <- E, (chunk_members _ _ _ _ _ Hc Hq).
Qed.

Lemma chunks_total pool count groups chunks :
  (0 <= count)%Z ->
  Forall2 (chunkOf pool count) groups chunks ->
  (Z.of_nat (length (concat chunks)) <= count * Z.of_nat (length groups))%Z.
Proof.
  intros Hc. induction 1 as [|g chunk groups chunks [_ Hlen] _ IH]; simpl; [lia|].
  rewrite length_app. lia.
Qed.

(** The per-segment selection, for any non-negative count. *)
Lemma perSegment_selection random pool count total k :
  (0 <= count)%Z -> Js.truthy total = false ->
  exists chunks,
    (selectQuestions random pool count total k).1 = concat chunks /\
    Forall2 (chunkOf pool count) (groupsOf pool) chunks /\
    (Z.of_nat (length (concat chunks)) <=
       count * Z.of_nat (length (groupsOf pool)))%Z /\
    forall g, length (filter (fun q => q_segmentIndex q = g) (concat chunks)) =
                Nat.min (Z.to_nat count) (length (groupOf pool g)).
Proof.
  intros Hc Ht. rewrite selectQuestions_falsy by assumption.
  destruct (perSegment_fold random pool count (groupsOf pool) [] k Hc)
    as (chunks & k' & -> & HF).
  exists chunks. simpl. repeat split; [done| by apply (chunks_total pool) |].
  intros g. destruct (decide (g ∈ groupsOf pool)) as [Hg|Hg].
  - apply (chunks_count _ _ (groupsOf pool)); [apply groupsOf_NoDup|done..].
  - rewrite (chunks_other _ _ _ _ _ HF Hg), (groupOf_empty _ _ Hg). simpl. lia.
Qed.

End QuizFacts.

(** * The claims about quiz assembly *)

Module QuizAssembly.
Import QuestionController QuizSpec QuizFacts.

(** C5, as the code has it: over a stored pool of M questions, quiz
    assembly with [totalQuestions = K] and K >= 1 returns a quiz whose
    questions are distinct elements of the pool (a sub-multiset of it, so
    without repetition when the pool has none), [min K M] of them: exactly K
    when K <= M, fewer than the pool when K < M, and the whole pool, in some
    order, when K >= M. *)
Theorem total_mode_selection random now store vid video pool qps K shuffle k :
  store !! vid = Some video -> questions video = Some pool -> pool <> [] ->
  (1 <= K)%Z ->
  exists quiz k',
    generateQuiz random now None store vid qps (Some K) shuffle k = (Ok quiz, k') /\
    (qq_question <$> quiz_questions quiz) ⊆+ pool /\
    (NoDup pool -> NoDup (qq_question <$> quiz_questions quiz)) /\
    length (quiz_questions quiz) = Nat.min (Z.to_nat K) (length pool) /\
    ((K <= Z.of_nat (length pool))%Z ->
       Z.of_nat (length (quiz_questions quiz)) = K) /\
    ((K < Z.of_nat (length pool))%Z ->
       ~ (qq_question <$> quiz_questions quiz) ≡ₚ pool) /\
    ((Z.of_nat (length pool) <= K)%Z ->
       (qq_question <$> quiz_questions quiz) ≡ₚ pool).
Proof.
  intros Hv Hq Hne HK.
  destruct (generateQuiz_ok random now store vid video pool qps (Some K) shuffle k
              Hv Hq Hne) as (quiz & k' & E & HP & _).
  rewrite selectQuestions_total in HP by lia.
  pose proof (shuffleArray_Permutation random pool k) as HS.
  set (shuffled := (shuffleArray random pool k).1) in *.
  assert (Hsub : (qq_question <$> quiz_questions quiz) ⊆+ pool).
  { rewrite HP, <- HS. apply slice0_submseteq. }
  assert (Hlen : length (quiz_questions quiz) = Nat.min (Z.to_nat K) (length pool)).
  { rewrite <- (length_fmap qq_question), HP, slice0_length by lia. by rewrite HS. }
  exists quiz, k'. split; [exact E|]. split; [exact Hsub|]. split.
  { intros Hnd. apply submseteq_Permutation in Hsub as [rest Hrest].
    rewrite Hrest in Hnd. by apply NoDup_app in Hnd as [? _]. }
  split; [exact Hlen|]. split; [lia|]. split.
  - intros Hlt Hperm. apply Permutation_length in Hperm.
    rewrite length_fmap in Hperm. lia.
  - intros Hge. rewrite HP.
    rewrite slice0_all by (rewrite HS; exact Hge). exact HS.
Qed.

Lemma total_mode_selection_witness :
  exists quiz k',
    generateQuiz zeroRandom 0 None exampleStore "v" None (Some 2%Z) None 0 = (Ok quiz, k') /\
    (qq_question <$> quiz_questions quiz) ⊆+ examplePool /\
    length (quiz_questions quiz) = 2%nat.
Proof.
  destruct (total_mode_selection zeroRandom 0 exampleStore "v"
              (mkVideo [] (Some examplePool)) examplePool None 2 None 0)
    as (quiz & k' & E & Hsub & _ & Hlen & _);
    [reflexivity | reflexivity | discriminate | lia |].
  exists quiz, k'. auto.
Defined.

(** C5 as stated fails at both ends of the range K <= M.  With
    [totalQuestions = 0] over a pool of four questions the quiz has three
    questions, not zero; with [totalQuestions = 4] it is the whole pool, not a
    strict subset of it. *)
Lemma total_mode_zero_and_full :
  selectedOf (generateQuiz zeroRandom 0 None exampleStore "v" None (Some 0%Z) (Some false) 0).1 =
    Some [ exampleQuestion "q1" 1 0; exampleQuestion "q2" 2 0;
           exampleQuestion "q3" 3 1 ] /\
  selectedOf (generateQuiz zeroRandom 0 None exampleStore "v" None (Some 4%Z) (Some false) 0).1 =
    Some [ exampleQuestion "q1" 1 0; exampleQuestion "q2" 2 0;
           exampleQuestion "q3" 3 1; exampleQuestion "q0" 0 0 ] /\
  [ exampleQuestion "q1" 1 0; exampleQuestion "q2" 2 0;
    exampleQuestion "q3" 3 1; exampleQuestion "q0" 0 0 ] ≡ₚ examplePool.
Proof.
  split; [vm_compute; reflexivity|]. split; [vm_compute; reflexivity|].
  unfold examplePool. symmetry.
  apply (Permutation_cons_append [_; _; _]).
Qed.

(** C6: in per-segment mode ([totalQuestions] omitted or 0), for a
    per-segment count C (a count, so C >= 0) over a pool with S distinct
    [segmentIndex] values, the selection is the concatenation, in order of
    first occurrence of the segment indices, of one chunk per segment; each
    chunk consists of [min C n] distinct questions of that segment's own n
    questions; the quiz is that concatenation when [shuffle] is false and a
    permutation of it otherwise.  Hence the quiz has at most C * S questions
    and segment g contributes [min C n] of them. *)
Theorem per_segment_mode_selection random now store vid video pool C total shuffle k :
  store !! vid = Some video -> questions video = Some pool -> pool <> [] ->
  Js.truthy total = false -> (0 <= C)%Z ->
  exists quiz k' chunks,
    generateQuiz random now None store vid (Some C) total shuffle k = (Ok quiz, k') /\
    Forall2 (chunkOf pool C) (groupsOf pool) chunks /\
    (qq_question <$> quiz_questions quiz) ≡ₚ concat chunks /\
    (shuffle = Some false -> qq_question <$> quiz_questions quiz = concat chunks) /\
    (Z.of_nat (length (quiz_questions quiz)) <=
       C * Z.of_nat (length (groupsOf pool)))%Z /\
    (forall g,
       length (filter (fun q => q_segmentIndex q = g)
                      (qq_question <$> quiz_questions quiz)) =
         Nat.min (Z.to_nat C) (length (groupOf pool g))).
Proof.
  intros Hv Hq Hne Ht HC.
  destruct (generateQuiz_ok random now store vid video pool (Some C) total shuffle k
              Hv Hq Hne) as (quiz & k' & E & HP & Hns & _).
  simpl in HP, Hns.
  destruct (perSegment_selection random pool C total k HC Ht)
    as (chunks & Esel & HF & Htot & Hcount).
  rewrite Esel in HP, Hns.
  exists quiz, k', chunks. repeat split; try done.
  - rewrite <- (length_fmap qq_question), HP. exact Htot.
  - intros g. rewrite HP. apply Hcount.
Qed.

Lemma per_segment_mode_selection_witness :
  exists quiz k',
    generateQuiz zeroRandom 0 None exampleStore "v" (Some 2%Z) None (Some false) 0 =
      (Ok quiz, k') /\
    (Z.of_nat (length (quiz_questions quiz)) <=
       2 * Z.of_nat (length (groupsOf examplePool)))%Z.
Proof.
  destruct (per_segment_mode_selection zeroRandom 0 exampleStore "v"
              (mkVideo [] (Some examplePool)) examplePool 2 None (Some false) 0)
    as (quiz & k' & chunks & E & _ & _ & _ & Hlen & _);
    [reflexivity | reflexivity | discriminate | reflexivity | lia |].
  exists quiz, k'. auto.
Defined.

(** C7, as the code has it: quiz assembly throws exactly when the look-up
    of the video rejects, the referenced video is absent from the store, or
    its stored question pool is absent or empty; in every other case a quiz
    is returned.  What it throws is a plain [Error], not a not-found error:
    its message is the handler's prefix followed by the message of the
    rejection, by "Video not found" or by "No questions available for this
    video", and the error middleware answers it with status 500 and code
    INTERNAL_ERROR. *)
Theorem generateQuiz_fails_exactly random now rejection store vid qps total shuffle k :
  ((exists m,
      (generateQuiz random now rejection store vid qps total shuffle k).1 = Throw m)
     <-> rejection <> None \/ nothingToQuiz store vid) /\
  (forall m, rejection = Some m ->
     (generateQuiz random now rejection store vid qps total shuffle k).1 =
       Throw ("Failed to generate quiz: " +:+ m)) /\
  (rejection = None -> store !! vid = None ->
     (generateQuiz random now rejection store vid qps total shuffle k).1 =
       Throw "Failed to generate quiz: Video not found") /\
  (rejection = None ->
   forall video, store !! vid = Some video ->
     questions video = None \/ questions video = Some [] ->
     (generateQuiz random now rejection store vid qps total shuffle k).1 =
       Throw "Failed to generate quiz: No questions available for this video") /\
  (rejection = None -> ~ nothingToQuiz store vid ->
     exists quiz,
       (generateQuiz random now rejection store vid qps total shuffle k).1 = Ok quiz) /\
  (forall m time url,
     (generateQuiz random now rejection store vid qps total shuffle k).1 = Throw m ->
     ErrorHandler.respond time url
       (generateQuiz random now rejection store vid qps total shuffle k).1 =
       inr (ErrorHandler.mkErrorResponse 500 false "INTERNAL_ERROR" (Some m) time url)).
Proof.
  assert (Hok : ~ nothingToQuiz store vid ->
     exists quiz, (generateQuiz random now None store vid qps total shuffle k).1 = Ok quiz).
  { unfold nothingToQuiz. intros Hn.
    destruct (store !! vid) as [video|] eqn:Hv; [|by destruct Hn].
    destruct (questions video) as [pool|] eqn:Hq; [|destruct Hn; by left].
    destruct (decide (pool = [])) as [->|Hne]; [destruct Hn; by right|].
    destruct (generateQuiz_ok random now store vid video pool qps total shuffle k
                Hv Hq Hne) as (quiz & k' & E & _).
    exists quiz. by rewrite E. }
  split; [|split; [|split; [|split; [|split]]]].
  - destruct rejection as [m0|].
    { rewrite generateQuiz_rejected. split; [intros _; by left|eauto]. }
    split.
    + intros [m Hm]. right. unfold nothingToQuiz.
      destruct (store !! vid) as [video|] eqn:Hv; [|done].
      destruct (questions video) as [[|q0 pool']|] eqn:Hq; [by right| |by left].
      destruct (generateQuiz_ok random now store vid video (q0 :: pool') qps total
                  shuffle k Hv Hq) as (quiz & k' & E & _); [done|].
      rewrite E in Hm. discriminate Hm.
    + intros [?|Hn]; [done|]. rewrite generateQuiz_fails by assumption. eauto.
  - intros m ->. by rewrite generateQuiz_rejected.
  - intros -> Hv. rewrite generateQuiz_fails by (unfold nothingToQuiz; by rewrite Hv).
    by rewrite Hv.
  - intros -> video Hv Hq.
    rewrite generateQuiz_fails by (unfold nothingToQuiz; by rewrite Hv).
    by rewrite Hv.
  - intros ->. exact Hok.
  - intros m time url Hm.
    destruct (generateQuiz_thrown _ _ _ _ _ _ _ _ _ _ Hm) as [m' ->].
    rewrite Hm. reflexivity.
Qed.

Lemma generateQuiz_fails_exactly_witness :
  (generateQuiz zeroRandom 0 (Some "buffering timed out") libraryStore storedId
                None None None 0).1 =
    Throw "Failed to generate quiz: buffering timed out" /\
  (generateQuiz zeroRandom 0 None libraryStore absentId None None None 0).1 =
    Throw "Failed to generate quiz: Video not found" /\
  (generateQuiz zeroRandom 0 None (<[absentId := mkVideo [] (Some [])]> libraryStore)
                absentId None None None 0).1 =
    Throw "Failed to generate quiz: No questions available for this video" /\
  (exists quiz,
     (generateQuiz zeroRandom 0 None libraryStore storedId None None None 0).1 =
       Ok quiz) /\
  ErrorHandler.respond "2024-01-01T00:00:00.000Z" "/api/questions/quiz"
    (generateQuiz zeroRandom 0 None libraryStore absentId None None None 0).1 =
    inr (ErrorHandler.mkErrorResponse 500 false "INTERNAL_ERROR"
           (Some "Failed to generate quiz: Video not found")
           "2024-01-01T00:00:00.000Z" "/api/questions/quiz").
Proof.
  split; [|split; [|split; [|split]]].
  - destruct (generateQuiz_fails_exactly zeroRandom 0 (Some "buffering timed out")
                libraryStore storedId None None None 0) as (_ & H & _).
    apply (H "buffering timed out"). reflexivity.
  - destruct (generateQuiz_fails_exactly zeroRandom 0 None libraryStore absentId
                None None None 0) as (_ & _ & H & _).
    apply H; reflexivity.
  - destruct (generateQuiz_fails_exactly zeroRandom 0 None
                (<[absentId := mkVideo [] (Some [])]> libraryStore) absentId
                None None None 0) as (_ & _ & _ & H & _).
    apply (H eq_refl (mkVideo [] (Some []))); [reflexivity | by right].
  - destruct (generateQuiz_fails_exactly zeroRandom 0 None libraryStore storedId
                None None None 0) as (_ & _ & _ & _ & H & _).
    apply H; [reflexivity|]. vm_compute. intros [H'|H']; discriminate H'.
  - destruct (generateQuiz_fails_exactly zeroRandom 0 None libraryStore absentId
                None None None 0) as (_ & _ & _ & _ & _ & H).
    apply H. reflexivity.
Defined.

(** C7 as stated fails.  The failure is no not-found error: for an absent
    video the handler throws a plain [Error], which carries no [httpCode]
    and is answered with status 500, where a [NotFoundError] is answered
    with 404.  And there is a further case without a quiz: when the look-up
    rejects, the handler throws although the video is stored with
    questions. *)
Lemma generateQuiz_failure_is_no_NotFound :
  libraryStore !! absentId = None /\
  (generateQuiz zeroRandom 0 None libraryStore absentId None None None 0).1 =
    Throw "Failed to generate quiz: Video not found" /\
  ErrorHandler.e_httpCode
    (ErrorHandler.plainError "Failed to generate quiz: Video not found") = None /\
  ErrorHandler.statusCode
    (ErrorHandler.error "2024-01-01T00:00:00.000Z" "/api/questions/quiz"
       (ErrorHandler.plainError "Failed to generate quiz: Video not found")) = 500%Z /\
  ErrorHandler.statusCode
    (ErrorHandler.error "2024-01-01T00:00:00.000Z" "/api/questions/quiz"
       (HandlersSpec.notFoundError "Video not found")) = 404%Z /\
  ~ nothingToQuiz libraryStore storedId /\
  (generateQuiz zeroRandom 0 (Some "buffering timed out") libraryStore storedId
                None None None 0).1 =
    Throw "Failed to generate quiz: buffering timed out".
Proof.
  repeat split; try (vm_compute; reflexivity).
  vm_compute. intros [H|H]; discriminate H.
Qed.

(** C10, as the code has it: a call with [totalQuestions = 0] is the call
    with [totalQuestions] omitted, because the falsy test sends it to the
    per-segment branch.  So over a stored pool, for a per-segment count that
    is not negative (2 when omitted), it returns for every segment index that
    many of the segment's questions, or all of them if there are fewer; the
    quiz is therefore not empty as soon as the count is at least 1. *)
Theorem zero_total_is_per_segment :
  (forall random now rejection store vid qps shuffle k,
     generateQuiz random now rejection store vid qps (Some 0%Z) shuffle k =
     generateQuiz random now rejection store vid qps None shuffle k) /\
  (forall random now store vid video pool qps shuffle k,
     store !! vid = Some video -> questions video = Some pool -> pool <> [] ->
     (0 <= default 2%Z qps)%Z ->
     exists quiz k',
       generateQuiz random now None store vid qps (Some 0%Z) shuffle k = (Ok quiz, k') /\
       (forall g,
          length (filter (fun q => q_segmentIndex q = g)
                         (qq_question <$> quiz_questions quiz)) =
            Nat.min (Z.to_nat (default 2%Z qps)) (length (groupOf pool g))) /\
       ((1 <= default 2%Z qps)%Z -> quiz_questions quiz <> [])).
Proof.
  split; [reflexivity|].
  intros random now store vid video pool qps shuffle k Hv Hq Hne HC.
  destruct (generateQuiz_ok random now store vid video pool qps (Some 0%Z) shuffle k
              Hv Hq Hne) as (quiz & k' & E & HP & _).
  destruct (perSegment_selection random pool (default 2%Z qps) (Some 0%Z) k HC eq_refl)
    as (chunks & Esel & _ & _ & Hcount).
  rewrite Esel in HP.
  assert (Hg : forall g,
    length (filter (fun q => q_segmentIndex q = g)
                   (qq_question <$> quiz_questions quiz)) =
      Nat.min (Z.to_nat (default 2%Z qps)) (length (groupOf pool g))).
  { intros g. rewrite HP. apply Hcount. }
  exists quiz, k'. split; [exact E|]. split; [exact Hg|].
  intros H1 Hnil. destruct pool as [|q0 pool']; [contradiction|].
  specialize (Hg (q_segmentIndex q0)). rewrite Hnil in Hg.
  unfold groupOf in Hg. rewrite filter_cons_True in Hg by reflexivity.
  simpl in Hg. lia.
Qed.

(** C10 as stated fails when the per-segment count is itself 0: the call
    with [totalQuestions = 0] then returns a quiz without questions. *)
Lemma zero_total_zero_count_empty :
  selectedOf (generateQuiz zeroRandom 0 None exampleStore "v" (Some 0%Z) (Some 0%Z)
                           (Some false) 0).1 = Some [].
Proof. vm_compute. reflexivity. Qed.

Lemma zero_total_is_per_segment_witness :
  exists quiz k',
    generateQuiz zeroRandom 0 None exampleStore "v" None (Some 0%Z) None 0 = (Ok quiz, k') /\
    quiz_questions quiz <> [].
Proof.
  destruct zero_total_is_per_segment as [_ H].
  destruct (H zeroRandom 0%Z exampleStore "v" (mkVideo [] (Some examplePool))
              examplePool None None 0%nat)
    as (quiz & k' & E & _ & Hne);
    [reflexivity | reflexivity | discriminate | simpl; lia |].
  exists quiz, k'. split; [exact E|]. apply Hne. simpl. lia.
Defined.

End QuizAssembly.

(** * Properties of the percentage *)

Module PercentageFacts.
Import QuestionController QuizSpec NumberFacts.
Local Open Scope Q_scope.









(** At a tie the double arithmetic decides: 23 of 40 is 57.5 percent and
    is reported as 57, 1 of 8 is 12.5 percent and is reported as 13. *)
Lemma computePercentage_ties :
  computePercentage 23 40 = Some 57%Z /\ computePercentage 1 8 = Some 13%Z.
Proof. split; vm_compute; reflexivity. Qed.

End PercentageFacts.

(** * Properties of grading *)

Module GradingFacts.
Import QuestionController QuizSpec.

Lemma index_out_of_bounds {T : Type} (a : list T) i :
  (i < 0 \/ Z.of_nat (length a) <= i)%Z -> Js.index a i = None.
Proof.
  intros H. unfold Js.index. destruct (Z.ltb_spec i 0) as [?|?]; [done|].
  apply lookup_ge_None. lia.
Qed.

Lemma index_in_bounds {T : Type} (a : list T) i x :
  Js.index a i = Some x -> (0 <= i < Z.of_nat (length a))%Z.
Proof.
  unfold Js.index. destruct (Z.ltb_spec i 0) as [?|?]; [done|].
  intros E%lookup_lt_Some. lia.
Qed.

Lemma gradeStep_skip stored st a :
  ~ inBounds stored a -> gradeStep stored st a = st.
Proof.
  intros H. unfold gradeStep. rewrite index_out_of_bounds; [done|].
  unfold inBounds in H. lia.
Qed.

Lemma grade_skip stored before a after st :
  ~ inBounds stored a ->
  fold_left (gradeStep stored) (before ++ a :: after) st =
  fold_left (gradeStep stored) (before ++ after) st.
Proof.
  intros H. rewrite !fold_left_app. simpl. by rewrite gradeStep_skip.
Qed.

Lemma grade_results_length stored l st :
  (length (g_results (fold_left (gradeStep stored) l st)) <=
     length (g_results st) + length l)%nat.
Proof.
  revert st. induction l as [|a l IH]; intros st; simpl; [lia|].
  etransitivity; [apply IH|]. unfold gradeStep.
  destruct (Js.index stored (questionIndex a)); simpl; [|lia].
  rewrite length_app. simpl. lia.
Qed.

Lemma grade_results_inBounds stored l st :
  Forall (fun r => (0 <= r_questionIndex r < Z.of_nat (length stored))%Z)
         (g_results st) ->
  Forall (fun r => (0 <= r_questionIndex r < Z.of_nat (length stored))%Z)
         (g_results (fold_left (gradeStep stored) l st)).
Proof.
  revert st. induction l as [|a l IH]; intros st H; simpl; [done|].
  apply IH. unfold gradeStep.
  destruct (Js.index stored (questionIndex a)) as [q|] eqn:E; simpl; [|done].
  apply Forall_app. split; [done|]. constructor; [|constructor]. simpl.
  by apply index_in_bounds in E.
Qed.


Lemma submitQuiz_ok store sub video stored :
  store !! videoId sub = Some video -> questions video = Some stored ->
  stored <> [] ->
  submitQuiz None store sub =
    let st := fold_left (gradeStep stored) (answers sub) (mkGrade [] 0) in
    Ok (mkQuizResult (g_correctAnswers st) (Z.of_nat (length (answers sub)))
          (computePercentage (g_correctAnswers st)
                             (Z.of_nat (length (answers sub))))
          (g_results st)).
Proof.
  intros Hv Hq Hne. unfold submitQuiz, findById. rewrite Hv, Hq.
  by destruct stored.
Qed.

End GradingFacts.

(** * The claims about grading *)

Module Grading.
Import QuestionController QuizSpec GradingFacts PercentageFacts.

(** C8, as the code has it: when a submission is graded against a video
    with a non-empty stored question list, a submitted pair whose
    [questionIndex] is outside that list is skipped without an error:
    grading succeeds, and the per-answer records and the score are those of
    the submission without that pair; every record refers to a stored
    question, and the list of records is shorter than the submission. *)
Theorem out_of_range_answer_skipped store sub video stored before a after :
  store !! videoId sub = Some video -> questions video = Some stored ->
  stored <> [] ->
  answers sub = before ++ a :: after ->
  (questionIndex a < 0 \/ Z.of_nat (length stored) <= questionIndex a)%Z ->
  exists r r',
    submitQuiz None store sub = Ok r /\
    submitQuiz None store (mkSubmission (videoId sub) (before ++ after)) = Ok r' /\
    r_answers r = r_answers r' /\
    score r = score r' /\
    Forall (fun x => (0 <= r_questionIndex x < Z.of_nat (length stored))%Z)
           (r_answers r) /\
    (length (r_answers r) < length (answers sub))%nat.
Proof.
  intros Hv Hq Hne Ha Hout.
  assert (Hnb : ~ inBounds stored a) by (unfold inBounds; lia).
  rewrite (submitQuiz_ok store sub video stored Hv Hq Hne).
  rewrite (submitQuiz_ok store (mkSubmission (videoId sub) (before ++ after))
             video stored Hv Hq Hne).
  simpl. rewrite Ha, (grade_skip stored before a after _ Hnb).
  eexists _, _. split; [reflexivity|]. split; [reflexivity|]. simpl.
  split; [done|]. split; [done|]. split.
  - apply grade_results_inBounds. constructor.
  - pose proof (grade_results_length stored (before ++ after) (mkGrade [] 0)) as H.
    simpl in H. rewrite !length_app in *. simpl. lia.
Qed.

(** C8 as stated fails when the stored question list is empty: every
    index is then out of bounds, and the submission is refused with an error
    instead of being graded with the pair skipped. *)
Lemma out_of_range_on_empty_pool :
  emptyPoolStore !! "e" = Some (mkVideo [] (Some [])) /\
  Js.index ([] : list IQuestion) 0 = None /\
  submitQuiz None emptyPoolStore (mkSubmission "e" [mkAnswer 0 0]) =
    Throw "Failed to submit quiz: No questions available for grading".
Proof. repeat split; vm_compute; reflexivity. Qed.

Lemma out_of_range_answer_skipped_witness :
  exists r r',
    submitQuiz None exampleStore exampleSubmission = Ok r /\
    submitQuiz None exampleStore (mkSubmission "v" [mkAnswer 0 0; mkAnswer 1 0]) = Ok r' /\
    r_answers r = r_answers r' /\ score r = score r' /\
    (length (r_answers r) < 3)%nat.
Proof.
  destruct (out_of_range_answer_skipped exampleStore exampleSubmission
              (mkVideo [] (Some examplePool)) examplePool
              [mkAnswer 0 0] (mkAnswer 7 0) [mkAnswer 1 0])
    as (r & r' & E & E' & Hr & Hs & _ & Hlen);
    [reflexivity | reflexivity | discriminate | reflexivity | simpl; lia |].
  exists r, r'. auto.
Defined.



End Grading.

(** * Further properties of the segment merger *)

Module MergerMore.
Import TranscriptionService MergerSpec MergerFacts TranscribeVideo.

Lemma string_app_assoc (a b c : string) : (a +:+ b) +:+ c = a +:+ (b +:+ c).
Proof.
  induction a as [|x a IH]; [reflexivity|].
  change (String x ((a +:+ b) +:+ c) = String x (a +:+ (b +:+ c))).
  by rewrite IH.
Qed.

Lemma join_space_cons2 x y l :
  Js.join_space (x :: y :: l) = x +:+ " " +:+ Js.join_space (y :: l).
Proof. reflexivity. Qed.

Lemma join_space_merge_head a b l2 :
  Js.join_space (a :: b :: l2) = Js.join_space ((a +:+ " " +:+ b) :: l2).
Proof.
  destruct l2 as [|y l2]; [reflexivity|].
  rewrite (join_space_cons2 a b), (join_space_cons2 b y),
    (join_space_cons2 (a +:+ " " +:+ b) y).
  by rewrite !string_app_assoc.
Qed.

Lemma join_space_merge l1 a b l2 :
  Js.join_space (l1 ++ a :: b :: l2) = Js.join_space (l1 ++ (a +:+ " " +:+ b) :: l2).
Proof.
  induction l1 as [|x l1 IH]; [apply join_space_merge_head|].
  destruct l1 as [|y l1].
  - change (Js.join_space (x :: a :: b :: l2) =
            Js.join_space (x :: (a +:+ " " +:+ b) :: l2)).
    rewrite !(join_space_cons2 x). f_equal. f_equal. apply join_space_merge_head.
  - change (Js.join_space (x :: y :: (l1 ++ a :: b :: l2)) =
            Js.join_space (x :: y :: (l1 ++ (a +:+ " " +:+ b) :: l2))).
    rewrite !(join_space_cons2 x). f_equal. f_equal. exact IH.
Qed.

(** ** The merger only ever merges neighbours *)

Lemma coarse_stable_step P st f rest :
  mergeStable P ->
  P ((pieceOfSegment <$> coarseFlush st) ++
     (pieceOfFragment <$> keptFragments (f :: rest))) ->
  P ((pieceOfSegment <$> coarseFlush (coarseStep st f)) ++
     (pieceOfFragment <$> keptFragments rest)).
Proof.
  intros HP. rewrite keptFragments_cons.
  destruct (String.eqb_spec (fragText f) "") as [E|E].
  - by rewrite coarseStep_blank.
  - rewrite coarseStep_kept by assumption. unfold coarseFlush.
    destruct (cs_current st) as [cur|]; simpl.
    + destruct (Qle_bool _ _); simpl.
      * rewrite !fmap_app, <- !app_assoc. simpl. auto.
      * rewrite !fmap_app, <- !app_assoc. simpl.
        apply (HP _ (pieceOfSegment cur) (pieceOfFragment f)).
    + rewrite !fmap_app, <- !app_assoc. simpl. auto.
Qed.

Lemma coarse_stable_fold P fs st :
  mergeStable P ->
  P ((pieceOfSegment <$> coarseFlush st) ++ (pieceOfFragment <$> keptFragments fs)) ->
  P (pieceOfSegment <$> coarseFlush (fold_left coarseStep fs st)).
Proof.
  intros HP. revert st. induction fs as [|f fs IH]; intros st H; simpl.
  - simpl in H. by rewrite app_nil_r in H.
  - by apply IH, coarse_stable_step.
Qed.

Lemma min_stable_step P st s rest :
  mergeStable P ->
  P ((pieceOfSegment <$> minFlush st) ++ (pieceOfSegment <$> s :: rest)) ->
  P ((pieceOfSegment <$> minFlush (minStep st s)) ++ (pieceOfSegment <$> rest)).
Proof.
  intros HP. unfold minStep, minFlush.
  destruct (ms_current st) as [cur|]; simpl.
  - destruct (_ <? _)%nat; simpl.
    + rewrite !fmap_app, <- !app_assoc. simpl.
      apply (HP _ (pieceOfSegment cur) (pieceOfSegment s)).
    + rewrite !fmap_app, <- !app_assoc. simpl. auto.
  - rewrite !fmap_app, <- !app_assoc. simpl. auto.
Qed.

Lemma min_stable_fold P segs st :
  mergeStable P ->
  P ((pieceOfSegment <$> minFlush st) ++ (pieceOfSegment <$> segs)) ->
  P (pieceOfSegment <$> minFlush (fold_left minStep segs st)).
Proof.
  intros HP. revert st. induction segs as [|s segs IH]; intros st H; simpl.
  - simpl in H. by rewrite app_nil_r in H.
  - by apply IH, min_stable_step.
Qed.

Lemma reindex_pieces l : pieceOfSegment <$> reindex l = pieceOfSegment <$> l.
Proof.
  apply list_eq. intros i. rewrite !list_lookup_fmap, reindex_lookup.
  by destruct (l !! i).
Qed.

(** Whatever holds of the kept fragments and survives the merging of
    neighbours holds of the merger's output. *)
Lemma merger_stable P fs :
  mergeStable P ->
  P (pieceOfFragment <$> keptFragments fs) ->
  P (pieceOfSegment <$> ensureMinimumSegmentLength (coarsePass fs)).
Proof.
  intros HP H. unfold ensureMinimumSegmentLength. rewrite reindex_pieces.
  apply min_stable_fold; [done|].
  change (P (pieceOfSegment <$> coarseFlush (fold_left coarseStep fs coarseInit))).
  apply coarse_stable_fold; [done|]. exact H.
Qed.

Lemma texts_of_pieces (l : list ISegment) :
  text <$> l = snd <$> (pieceOfSegment <$> l).
Proof. rewrite <- list_fmap_compose. reflexivity. Qed.

Lemma joined_text_stable J :
  mergeStable (fun l => Js.join_space (snd <$> l) = J).
Proof.
  intros l1 a b l2 H. rewrite fmap_app in *. simpl in *.
  by rewrite <- join_space_merge.
Qed.

Lemma merger_joined_text fs :
  Js.join_space (text <$> ensureMinimumSegmentLength (coarsePass fs)) =
  Js.join_space (fragText <$> keptFragments fs).
Proof.
  rewrite texts_of_pieces.
  apply (merger_stable (fun l => Js.join_space (snd <$> l) = _));
    [apply joined_text_stable|].
  rewrite <- list_fmap_compose. reflexivity.
Qed.

Lemma sameExtent_stable n first last_ : mergeStable (sameExtent n first last_).
Proof.
  intros l1 a b l2 (Hlen & Hne & Hh & Hl). unfold sameExtent.
  rewrite length_app in *. simpl in *. split; [lia|]. split.
  { intros _ E. by destruct l1. } split.
  { rewrite <- Hh. by destruct l1. }
  rewrite <- Hl. rewrite !last_app. simpl.
  destruct l2 as [|y l2]; [reflexivity|]. by rewrite !last_cons_cons.
Qed.

(** Segments pushed by the coarse loop have reached the threshold. *)
Lemma coarse_pushed_step st f :
  Forall (fun s => (segmentDuration <= duration s)%Q) (cs_segments st) ->
  Forall (fun s => (segmentDuration <= duration s)%Q) (cs_segments (coarseStep st f)).
Proof.
  intros H. destruct (String.eqb_spec (fragText f) "") as [E|E].
  - by rewrite coarseStep_blank.
  - rewrite coarseStep_kept by assumption.
    destruct (cs_current st) as [cur|]; simpl; [|done].
    destruct (Qle_bool segmentDuration (Js.sub (endTime cur) (startTime cur))) eqn:Hb;
      simpl; [|done].
    apply Forall_app. split; [done|]. constructor; [|constructor].
    by apply Qle_bool_iff.
Qed.

Lemma coarse_pushed_fold fs st :
  Forall (fun s => (segmentDuration <= duration s)%Q) (cs_segments st) ->
  Forall (fun s => (segmentDuration <= duration s)%Q)
         (cs_segments (fold_left coarseStep fs st)).
Proof.
  revert st. induction fs as [|f fs IH]; intros st H; simpl; [done|].
  by apply IH, coarse_pushed_step.
Qed.

(** The minimum-length loop leaves alone a list whose segments after the
    first are all long enough. *)
Lemma minLoop_fixed l : Forall longEnough (drop 1 l) -> minLoop l = l.
Proof.
  induction l as [|s l IH] using rev_ind; intros H; [reflexivity|].
  destruct (decide (l = [])) as [->|Hne]; [reflexivity|].
  rewrite drop1_snoc in H by assumption. apply Forall_app in H as [H1 H2].
  rewrite minLoop_flush; [by rewrite IH| done |].
  by inversion H2.
Qed.

Lemma reindex_idemp l : reindex (reindex l) = reindex l.
Proof.
  apply list_eq. intros i. rewrite !reindex_lookup.
  by destruct (l !! i).
Qed.

Lemma longEnough_reindex l :
  Forall longEnough (drop 1 l) -> Forall longEnough (drop 1 (reindex l)).
Proof.
  rewrite !Forall_lookup. intros H i s. rewrite lookup_drop, reindex_lookup.
  destruct (l !! (1 + i)%nat) as [s'|] eqn:E; [|done].
  intros [= <-]. apply (H i s'). by rewrite lookup_drop.
Qed.

End MergerMore.

(** * What the merger guarantees to its callers *)

Module MergerGuarantees.
Import TranscriptionService MergerSpec MergerFacts TranscribeVideo MergerMore.

(** X1: a transcription whose JSON has a segments array succeeds, and its
    full transcript is the trimmed texts of the fragments that are not
    blank, in their order, joined by single spaces: no text is lost,
    repeated or reordered by the merging. *)
Theorem transcript_keeps_all_text fs :
  exists r,
    transcribeVideo (Ok (mkTranscript (Some fs))) = Ok r /\
    segmentTranscript (mkTranscript (Some fs)) = Ok (tr_segments r) /\
    fullTranscript r = Js.join_space (fragText <$> keptFragments fs).
Proof.
  eexists. split; [reflexivity|]. split; [reflexivity|]. simpl.
  apply merger_joined_text.
Qed.

(** X2: the merger returns at most as many segments as there are
    non-blank fragments, and none exactly when there is none; the first
    segment starts where the first non-blank fragment starts and the last
    segment ends where the last non-blank fragment ends. *)
Theorem merger_keeps_extent fs :
  exists out,
    segmentTranscript (mkTranscript (Some fs)) = Ok out /\
    (length out <= length (keptFragments fs))%nat /\
    (out = [] <-> keptFragments fs = []) /\
    startTime <$> head out = fragStartTime <$> head (keptFragments fs) /\
    endTime <$> last out = fragEndTime <$> last (keptFragments fs).
Proof.
  eexists. split; [reflexivity|].
  set (out := ensureMinimumSegmentLength (coarsePass fs)).
  assert (H : sameExtent (length (keptFragments fs))
                (fragStartTime <$> head (keptFragments fs))
                (fragEndTime <$> last (keptFragments fs))
                (pieceOfSegment <$> out)).
  { apply merger_stable; [apply sameExtent_stable|].
    unfold sameExtent. rewrite length_fmap. split; [lia|]. split.
    { intros Hn E. apply Hn. by destruct (keptFragments fs). }
    split.
    - by destruct (keptFragments fs).
    - rewrite fmap_last. by destruct (last (keptFragments fs)). }
  destruct H as (Hlen & Hne & Hh & Hl). rewrite length_fmap in Hlen.
  clearbody out.
  split; [exact Hlen|]. split; [|split].
  - split.
    + intros E. destruct (keptFragments fs) as [|f l]; [done|].
      exfalso. apply Hne; [done|]. by rewrite E.
    + intros E. rewrite E in Hlen. destruct out; [done | simpl in Hlen; lia].
  - rewrite <- Hh. by destruct out.
  - rewrite <- Hl, fmap_last. by destruct (last out).
Qed.

(** X3: every segment of the coarse pass other than the last one has a
    duration of at least 300 seconds as the double subtraction of its start
    from its end computes it; its exact span can be shorter, by no more than
    2^-45 seconds. *)
Theorem coarse_segments_reach_threshold fs pushed cur :
  coarsePass fs = pushed ++ [cur] ->
  Forall (fun s => (300 <= Js.sub (endTime s) (startTime s))%Q /\
                   (300 - (1 # 35184372088832) <= endTime s - startTime s)%Q)
         pushed.
Proof.
  intros E.
  destruct (coarseFlush_snoc _ _ _ (coarse_inv_loop fs) E) as (E1 & _ & _).
  pose proof (coarse_pushed_fold fs coarseInit ltac:(constructor)) as HF.
  rewrite E1 in HF. eapply Forall_impl; [exact HF|].
  intros s Hs. split; [exact Hs|].
  apply NumberFacts.double_reaches_300. exact Hs.
Qed.

Lemma coarse_segments_reach_threshold_witness :
  Forall (fun s => (300 <= Js.sub (endTime s) (startTime s))%Q /\
                   (300 - (1 # 35184372088832) <= endTime s - startTime s)%Q)
         [mkSegment 0 310 sixtyWords 0].
Proof.
  apply (coarse_segments_reach_threshold exampleFragments
           [mkSegment 0 310 sixtyWords 0] (mkSegment 310 320 "b" 1)).
  vm_compute. reflexivity.
Defined.

(** X4: the minimum-length pass is idempotent: applied to its own output
    it changes nothing. *)
Theorem ensureMinimumSegmentLength_idempotent segs :
  ensureMinimumSegmentLength (ensureMinimumSegmentLength segs) =
  ensureMinimumSegmentLength segs.
Proof.
  unfold ensureMinimumSegmentLength. fold (minLoop segs).
  fold (minLoop (reindex (minLoop segs))).
  rewrite minLoop_fixed; [apply reindex_idemp|].
  apply longEnough_reindex, minLoop_tail_longEnough.
Qed.

End MergerGuarantees.

(** * Properties of [TranscriptionController] *)

Module TimestampFacts.
Import TranscriptionController.

















(** [find] by [segmentIndex] on a list indexed 0, 1, 2, ... is the lookup
    at that position. *)
Lemma find_by_index (segs : list ISegment) idx :
  segmentIndex <$> segs = indicesFromZero (length segs) ->
  JsMore.find (fun s => segmentIndex s = idx) segs = Js.index segs idx.
Proof.
  intros Hinv.
  assert (Hpos : forall i s, segs !! i = Some s -> segmentIndex s = Z.of_nat i).
  { intros i s E. apply (f_equal (fun l => l !! i)) in Hinv.
    unfold indicesFromZero in Hinv. rewrite !list_lookup_fmap, E in Hinv.
    rewrite lookup_seq_lt in Hinv by (by apply lookup_lt_Some in E).
    simpl in Hinv. by injection Hinv. }
  unfold JsMore.find, Js.index.
  destruct (list_find _ segs) as [[i x]|] eqn:E; simpl.
  - apply list_find_Some in E as (E1 & E2 & _).
    rewrite <- E2, (Hpos _ _ E1).
    destruct (Z.ltb_spec (Z.of_nat i) 0) as [?|_]; [lia|].
    by rewrite Nat2Z.id.
  - apply list_find_None in E. rewrite Forall_forall in E.
    destruct (Z.ltb_spec idx 0) as [?|Hge]; [done|].
    destruct (segs !! Z.to_nat idx) as [s|] eqn:Es; [|done].
    exfalso. apply (E s); [by eapply list_elem_of_lookup_2|].
    rewrite (Hpos _ _ Es). lia.
Qed.

End TimestampFacts.

Module TranscriptionEndpoints.
Import TranscriptionService MergerFacts TranscriptionController TimestampFacts.

(** X5: once the merger's output is stored as the video's segments,
    [getSegment] with index i returns the segment at position i of that
    list, and fails with "Segment not found" exactly when i is not a
    position of the list; for an unknown video it fails with "Video not
    found". *)
Theorem getSegment_after_transcription store vid idx :
  (store !! vid = None ->
   getSegment store vid idx = Throw "Failed to fetch segment: Video not found") /\
  (forall video fs,
     store !! vid = Some video ->
     segmentTranscript (mkTranscript (Some fs)) = Ok (segments video) ->
     getSegment store vid idx =
       match Js.index (segments video) idx with
       | Some s => Ok s
       | None => Throw "Failed to fetch segment: Segment not found"
       end).
Proof.
  split.
  - intros Hv. unfold getSegment. by rewrite Hv.
  - intros video fs Hv Hs. unfold getSegment. rewrite Hv.
    rewrite find_by_index.
    + by destruct (Js.index (segments video) idx).
    + injection Hs as <-. unfold ensureMinimumSegmentLength.
      rewrite reindex_length. apply reindex_indices.
Qed.

Lemma getSegment_after_transcription_witness :
  getSegment {[ "p" := mkVideo [mkSegment 0 10 "hi" 0] None ]} "p" 0%Z =
    Ok (mkSegment 0 10 "hi" 0) /\
  getSegment {[ "p" := mkVideo [mkSegment 0 10 "hi" 0] None ]} "p" 1%Z =
    Throw "Failed to fetch segment: Segment not found".
Proof.
  split.
  - destruct (getSegment_after_transcription
                {[ "p" := mkVideo [mkSegment 0 10 "hi" 0] None ]} "p" 0%Z)
      as [_ H].
    apply (H (mkVideo [mkSegment 0 10 "hi" 0] None)
             [mkFragment (Some 0%Q) (Some 10%Q) (Some " hi ")]);
      [reflexivity | vm_compute; reflexivity].
  - destruct (getSegment_after_transcription
                {[ "p" := mkVideo [mkSegment 0 10 "hi" 0] None ]} "p" 1%Z)
      as [_ H].
    apply (H (mkVideo [mkSegment 0 10 "hi" 0] None)
             [mkFragment (Some 0%Q) (Some 10%Q) (Some " hi ")]);
      [reflexivity | vm_compute; reflexivity].
Defined.



End TranscriptionEndpoints.

(** * Properties of the question handlers *)

Module HandlersFacts.
Import QuestionController QuizSpec QuizFacts QuestionHandlers HandlersSpec.

Lemma slice0_prefix {T : Type} (a : list T) n : Js.slice0 a n `prefix_of` a.
Proof. unfold Js.slice0. apply prefix_take. Qed.

Lemma saveQuestions_accepted validate store vid video qs :
  validate (mkVideo (segments video) (Some qs)) = None ->
  saveQuestions validate store vid video qs =
    Ok (<[vid := mkVideo (segments video) (Some qs)]> store).
Proof. intros H. unfold saveQuestions. by rewrite H. Qed.

Lemma applyPatch_idemp patch q :
  applyPatch patch (applyPatch patch q) = applyPatch patch q.
Proof.
  unfold applyPatch. destruct patch as [[[|c s]|] [o|] [a|] [[|c' e]|]]; reflexivity.
Qed.

Lemma splice1_in_bounds {T : Type} (a : list T) idx :
  (0 <= idx)%Z -> JsMore.splice1 a idx = delete (Z.to_nat idx) a.
Proof.
  intros H. unfold JsMore.splice1.
  destruct (Z.ltb_spec idx 0) as [?|_]; [lia|].
  destruct (Z.le_gt_cases idx (Z.of_nat (length a))) as [Hle|Hgt].
  - by rewrite Z.min_l.
  - rewrite Z.min_r by lia. rewrite Nat2Z.id.
    rewrite !delete_take_drop, !take_ge, !drop_ge by lia. reflexivity.
Qed.

Lemma splice1_negative {T : Type} (a : list T) idx :
  (idx < 0)%Z ->
  JsMore.splice1 a idx =
    delete (Z.to_nat (Z.max (Z.of_nat (length a) + idx) 0)) a.
Proof.
  intros H. unfold JsMore.splice1.
  by destruct (Z.ltb_spec idx 0) as [_|?]; [|lia].
Qed.

Lemma getQuestions_found random store vid video segIdx limit shuffle k :
  store !! vid = Some video ->
  getQuestions random store vid segIdx limit shuffle k =
    let '(shuffled, k') :=
      if default false shuffle then shuffleArray random (listed video segIdx) k
      else (listed video segIdx, k) in
    let limited :=
      match limit with
      | Some n => if negb (n =? 0)%Z && (0 <? n)%Z then Js.slice0 shuffled n
                  else shuffled
      | None => shuffled
      end in
    (Ok (mkQuestionList limited (Z.of_nat (length limited)) segIdx), k').
Proof.
  intros Hv. unfold getQuestions. rewrite Hv. by destruct segIdx.
Qed.

End HandlersFacts.

Module QuestionEndpoints.
Import QuestionController QuizSpec QuizFacts QuestionHandlers HandlersSpec HandlersFacts.

(** X8: for a stored video [getQuestions] never fails, even when the
    video has no question list.  It returns distinct questions among the
    stored ones, or among those of the requested segment when one is given;
    all of them up to the limit, which counts only when it is positive;
    [totalQuestions] is the number returned; and without shuffling they are
    the first ones in stored order and no random number is drawn. *)
Theorem getQuestions_listing random store vid video segIdx limit shuffle k :
  store !! vid = Some video ->
  exists r k',
    getQuestions random store vid segIdx limit shuffle k = (Ok r, k') /\
    ql_questions r ⊆+ listed video segIdx /\
    (forall g q, segIdx = Some g -> q ∈ ql_questions r -> q_segmentIndex q = g) /\
    length (ql_questions r) =
      match limit with
      | Some n => if (0 <? n)%Z
                  then Nat.min (Z.to_nat n) (length (listed video segIdx))
                  else length (listed video segIdx)
      | None => length (listed video segIdx)
      end /\
    ql_totalQuestions r = Z.of_nat (length (ql_questions r)) /\
    ql_segmentIndex r = segIdx /\
    (default false shuffle = false ->
       ql_questions r `prefix_of` listed video segIdx /\ k' = k).
Proof.
  intros Hv. rewrite (getQuestions_found _ _ _ video) by assumption.
  set (cands := listed video segIdx).
  assert (Hshuf : exists shuffled k',
    (if default false shuffle then shuffleArray random cands k else (cands, k)) =
      (shuffled, k') /\ shuffled ≡ₚ cands /\
    (default false shuffle = false -> shuffled = cands /\ k' = k)).
  { destruct (default false shuffle).
    - pose proof (shuffleArray_Permutation random cands k) as HP.
      destruct (shuffleArray random cands k) as [sh k']. simpl in HP.
      exists sh, k'. repeat split; done.
    - exists cands, k. repeat split; done. }
  destruct Hshuf as (shuffled & k' & -> & HP & Hoff).
  set (limited := match limit with
                  | Some n => if negb (n =? 0)%Z && (0 <? n)%Z
                              then Js.slice0 shuffled n else shuffled
                  | None => shuffled
                  end).
  assert (Hsub : limited ⊆+ cands).
  { subst limited. destruct limit as [n|]; [|by rewrite HP].
    destruct (negb _ && _); [|by rewrite HP].
    rewrite <- HP. apply slice0_submseteq. }
  exists (mkQuestionList limited (Z.of_nat (length limited)) segIdx), k'.
  simpl. split; [done|]. split; [done|]. split.
  { intros g q -> Hq. subst cands. simpl in Hsub.
    pose proof (elem_of_submseteq _ _ _ Hq Hsub) as Hin.
    unfold groupOf in Hin. by apply list_elem_of_filter in Hin as [? _]. }
  split.
  { subst limited. destruct limit as [n|]; [|by rewrite HP].
    destruct (Z.ltb_spec 0 n) as [Hn|Hn].
    - destruct (Z.eqb_spec n 0) as [?|_]; [lia|]. simpl.
      rewrite slice0_length by lia. by rewrite HP.
    - rewrite andb_false_r. by rewrite HP. }
  split; [done|]. split; [done|].
  intros Hs. destruct (Hoff Hs) as [-> ->]. split; [|done].
  subst limited. destruct limit as [n|]; [|done].
  destruct (negb _ && _); [apply slice0_prefix|done].
Qed.

Lemma getQuestions_listing_witness :
  exists r k',
    getQuestions zeroRandom exampleStore "v" (Some 0%Z) (Some 2%Z) None 0 = (Ok r, k') /\
    length (ql_questions r) = 2%nat.
Proof.
  destruct (getQuestions_listing zeroRandom exampleStore "v"
              (mkVideo [] (Some examplePool)) (Some 0%Z) (Some 2%Z) None 0)
    as (r & k' & E & _ & _ & Hlen & _); [reflexivity|].
  exists r, k'. split; [exact E|]. exact Hlen.
Defined.

(** X9: for a stored video [getQuestionsBySegment] never fails: for any
    index it returns exactly the stored questions of that segment, in stored
    order, which is also what [getQuestions] lists for that segment without
    shuffle and limit, and the group that the quiz assembly draws from. *)
Theorem getQuestionsBySegment_agrees random store vid video idx k :
  store !! vid = Some video ->
  exists r,
    getQuestionsBySegment store vid idx = Ok r /\
    sq_questions r = groupOf (default [] (questions video)) idx /\
    sq_segmentIndex r = idx /\
    (getQuestions random store vid (Some idx) None None k).1 =
      Ok (mkQuestionList (sq_questions r)
            (Z.of_nat (length (sq_questions r))) (Some idx)).
Proof.
  intros Hv. unfold getQuestionsBySegment, getQuestions. rewrite Hv.
  eexists. split; [reflexivity|]. simpl.
  destruct (questions video) as [all|]; simpl; repeat split; reflexivity.
Qed.

Lemma getQuestionsBySegment_agrees_witness :
  exists r,
    getQuestionsBySegment exampleStore "v" 1 = Ok r /\
    sq_questions r = [exampleQuestion "q3" 3 1].
Proof.
  destruct (getQuestionsBySegment_agrees zeroRandom exampleStore "v"
              (mkVideo [] (Some examplePool)) 1 0)
    as (r & E & Hq & _); [reflexivity|].
  exists r. split; [exact E|]. rewrite Hq. reflexivity.
Defined.

(** X10: deleting at a position of the stored list, when the save is
    accepted, removes exactly that question: the list is one shorter, the
    questions before the position stay where they are and the ones after it
    move up by one; the segments of the video and all other videos are
    untouched. *)
Theorem deleteQuestion_removes_one validate store vid video qs idx :
  store !! vid = Some video -> questions video = Some qs ->
  (0 <= idx < Z.of_nat (length qs))%Z ->
  validate (mkVideo (segments video) (Some (delete (Z.to_nat idx) qs))) = None ->
  exists store' qs',
    deleteQuestion validate store vid idx =
      (Ok "Question deleted successfully", store') /\
    store' !! vid = Some (mkVideo (segments video) (Some qs')) /\
    (forall v, v <> vid -> store' !! v = store !! v) /\
    S (length qs') = length qs /\
    (forall j, (j < Z.to_nat idx)%nat -> qs' !! j = qs !! j) /\
    (forall j, (Z.to_nat idx <= j)%nat -> qs' !! j = qs !! S j).
Proof.
  intros Hv Hq Hidx Hval. unfold deleteQuestion. rewrite Hv, Hq.
  destruct (Z.leb_spec (Z.of_nat (length qs)) idx) as [?|_]; [lia|].
  rewrite splice1_in_bounds by lia.
  rewrite saveQuestions_accepted by assumption.
  eexists _, _. split; [reflexivity|]. split; [apply lookup_insert_eq|].
  split; [intros v Hne; by apply lookup_insert_ne|]. split.
  { rewrite length_delete by (apply lookup_lt_is_Some; lia). lia. }
  split; intros j Hj.
  - by apply list_lookup_delete_lt.
  - by apply list_lookup_delete_ge.
Qed.

Lemma deleteQuestion_removes_one_witness :
  exists store' qs',
    deleteQuestion acceptAll exampleStore "v" 1 =
      (Ok "Question deleted successfully", store') /\
    store' !! "v" = Some (mkVideo [] (Some qs')) /\
    S (length qs') = 4%nat.
Proof.
  destruct (deleteQuestion_removes_one acceptAll exampleStore "v"
              (mkVideo [] (Some examplePool)) examplePool 1)
    as (store' & qs' & E & Hs & _ & Hlen & _);
    [reflexivity | reflexivity | simpl; lia | reflexivity |].
  exists store', qs'. auto.
Defined.

(** X11: [deleteQuestion] refuses an index only when it is at or past the
    end of the list (or the list is absent), with "Question not found" and
    no change to the store.  A negative index is not refused: when the save
    is accepted the question counted from the end of the list is removed
    (the last one for -1, the first one for an index below minus the
    length).  A rejected save leaves the store as it was. *)
Theorem deleteQuestion_edges validate store vid video idx :
  store !! vid = Some video ->
  (questions video = None \/
   (exists qs, questions video = Some qs /\ (Z.of_nat (length qs) <= idx)%Z) ->
   deleteQuestion validate store vid idx =
     (Throw "Failed to delete question: Question not found", store)) /\
  (forall qs, questions video = Some qs -> (idx < 0)%Z ->
     let at_ := Z.to_nat (Z.max (Z.of_nat (length qs) + idx) 0) in
     validate (mkVideo (segments video) (Some (delete at_ qs))) = None ->
     deleteQuestion validate store vid idx =
       (Ok "Question deleted successfully",
        <[vid := mkVideo (segments video) (Some (delete at_ qs))]> store)) /\
  (forall m, (deleteQuestion validate store vid idx).1 = Throw m ->
     (deleteQuestion validate store vid idx).2 = store).
Proof.
  intros Hv. unfold deleteQuestion. rewrite Hv. split; [|split].
  - intros [Hq|(qs & Hq & Hge)]; rewrite Hq; [done|].
    by destruct (Z.leb_spec (Z.of_nat (length qs)) idx) as [_|?]; [|lia].
  - cbv zeta. intros qs Hq Hneg Hval. rewrite Hq.
    destruct (Z.leb_spec (Z.of_nat (length qs)) idx) as [?|_]; [lia|].
    rewrite splice1_negative by assumption.
    by rewrite saveQuestions_accepted.
  - intros m. destruct (questions video) as [qs|]; [|done].
    destruct (Z.leb_spec (Z.of_nat (length qs)) idx) as [_|_]; [done|].
    by destruct (saveQuestions validate store vid video _).
Qed.

Lemma deleteQuestion_edges_witness :
  deleteQuestion acceptAll exampleStore "v" 4 =
    (Throw "Failed to delete question: Question not found", exampleStore) /\
  deleteQuestion acceptAll exampleStore "v" (-1) =
    (Ok "Question deleted successfully",
     <["v" := mkVideo [] (Some [ exampleQuestion "q0" 0 0; exampleQuestion "q1" 1 0;
                                 exampleQuestion "q2" 2 0 ])]> exampleStore).
Proof.
  destruct (deleteQuestion_edges acceptAll exampleStore "v"
              (mkVideo [] (Some examplePool)) 4 eq_refl) as (H1 & _ & _).
  destruct (deleteQuestion_edges acceptAll exampleStore "v"
              (mkVideo [] (Some examplePool)) (-1) eq_refl) as (_ & H2 & _).
  split.
  - apply H1. right. exists examplePool. split; [reflexivity | simpl; lia].
  - apply (H2 examplePool); [reflexivity | lia | reflexivity].
Defined.

(** X12: an accepted update at a position of the stored list replaces
    that question by the patched one and nothing else: the number of
    questions, every other question, the question's [segmentIndex], the
    video's segments and all other videos stay as they were.  An empty
    [question] or [explanation] in the patch is ignored, whereas a
    [correctAnswer] of 0 is applied.  Sending the same patch again changes
    nothing more. *)
Theorem updateQuestion_patches_one validate cannotSet store vid video qs idx patch q :
  store !! vid = Some video -> questions video = Some qs ->
  (0 <= idx)%Z -> qs !! Z.to_nat idx = Some q ->
  validate (mkVideo (segments video)
              (Some (<[Z.to_nat idx := applyPatch patch q]> qs))) = None ->
  let store' :=
    <[vid := mkVideo (segments video)
               (Some (<[Z.to_nat idx := applyPatch patch q]> qs))]> store in
  updateQuestion validate cannotSet store vid idx patch =
    (Ok (mkUpdateResponse "Question updated successfully"
           (Some (applyPatch patch q))), store') /\
  length (<[Z.to_nat idx := applyPatch patch q]> qs) = length qs /\
  (forall j, j <> Z.to_nat idx ->
     <[Z.to_nat idx := applyPatch patch q]> qs !! j = qs !! j) /\
  q_segmentIndex (applyPatch patch q) = q_segmentIndex q /\
  (p_question patch = Some "" -> question (applyPatch patch q) = question q) /\
  (p_correctAnswer patch = Some 0%Z -> correctAnswer (applyPatch patch q) = 0%Z) /\
  (forall v, v <> vid -> store' !! v = store !! v) /\
  updateQuestion validate cannotSet store' vid idx patch =
    (Ok (mkUpdateResponse "Question updated successfully"
           (Some (applyPatch patch q))), store').
Proof.
  intros Hv Hq Hidx Hlook Hval store'.
  pose proof (lookup_lt_Some _ _ _ Hlook) as Hlt.
  assert (Hindex : forall l : list IQuestion, length l = length qs ->
            Js.index l idx = l !! Z.to_nat idx).
  { intros l _. unfold Js.index.
    by destruct (Z.ltb_spec idx 0) as [?|_]; [lia|]. }
  split.
  { unfold updateQuestion. rewrite Hv, Hq.
    destruct (Z.leb_spec (Z.of_nat (length qs)) idx) as [?|_]; [lia|].
    rewrite (Hindex qs eq_refl), Hlook.
    by rewrite saveQuestions_accepted. }
  split; [apply length_insert|]. split.
  { intros j Hj. by apply list_lookup_insert_ne. }
  split; [reflexivity|]. split.
  { intros E. unfold applyPatch. simpl. by rewrite E. }
  split.
  { intros E. unfold applyPatch. simpl. by rewrite E. }
  split; [intros v Hne; by apply lookup_insert_ne|].
  unfold updateQuestion. subst store'. rewrite lookup_insert_eq. simpl.
  rewrite length_insert.
  destruct (Z.leb_spec (Z.of_nat (length qs)) idx) as [?|_]; [lia|].
  rewrite (Hindex _ (length_insert _ _ _)).
  rewrite list_lookup_insert_eq by assumption.
  rewrite applyPatch_idemp, list_insert_insert_eq.
  rewrite saveQuestions_accepted by assumption.
  by rewrite insert_insert_eq.
Qed.

Lemma updateQuestion_patches_one_witness :
  updateQuestion acceptAll v8CannotSet exampleStore "v" 1
    (mkPatch (Some "") None (Some 0%Z) None) =
    (Ok (mkUpdateResponse "Question updated successfully"
           (Some (exampleQuestion "q1" 0 0))),
     <["v" := mkVideo [] (Some [ exampleQuestion "q0" 0 0; exampleQuestion "q1" 0 0;
                                 exampleQuestion "q2" 2 0; exampleQuestion "q3" 3 1 ])]>
       exampleStore).
Proof.
  destruct (updateQuestion_patches_one acceptAll v8CannotSet exampleStore "v"
              (mkVideo [] (Some examplePool)) examplePool 1
              (mkPatch (Some "") None (Some 0%Z) None) (exampleQuestion "q1" 1 0))
    as (H & _); [reflexivity | reflexivity | lia | reflexivity | reflexivity |].
  exact H.
Defined.

End QuestionEndpoints.

(** * Properties of the question statistics *)

Module StatsFacts.
Import QuestionController QuizSpec QuizFacts QuestionHandlers HandlersSpec.

Lemma Map_get_cons e m key :
  JsMore.Map_get (e :: m) key =
    if decide (e.1 = key) then Some e.2 else JsMore.Map_get m key.
Proof.
  unfold JsMore.Map_get, JsMore.find. simpl.
  destruct (decide (e.1 = key)) as [?|?]; simpl; [done|].
  by destruct (list_find _ m) as [[i x]|].
Qed.

Lemma Map_get_cons_nil key : JsMore.Map_get [] key = None.
Proof. reflexivity. Qed.

Lemma Map_set_cons e m key value :
  JsMore.Map_set (e :: m) key value =
    if decide (e.1 = key) then (key, value) :: m
    else e :: JsMore.Map_set m key value.
Proof. reflexivity. Qed.

Lemma keys_Map_set m key value :
  keys (JsMore.Map_set m key value) = Js.Set_add (keys m) key.
Proof.
  unfold keys, Js.Set_add. induction m as [|e m IH]; [done|].
  rewrite Map_set_cons, fmap_cons.
  destruct (decide (e.1 = key)) as [E|E].
  - rewrite fmap_cons. simpl.
    rewrite decide_True by (rewrite E; left). by rewrite E.
  - rewrite fmap_cons, IH. destruct (decide (key ∈ fst <$> m)) as [Hin|Hin].
    + by rewrite decide_True by (by right).
    + rewrite decide_False; [done|].
      intros [?|?]%elem_of_cons; [congruence|done].
Qed.

Lemma countStep_keys m q :
  keys (countStep m q) = Js.Set_add (keys m) (q_segmentIndex q).
Proof. apply keys_Map_set. Qed.

Lemma count_fold_keys qs m :
  keys (fold_left countStep qs m) =
    fold_left Js.Set_add (q_segmentIndex <$> qs) (keys m).
Proof.
  revert m. induction qs as [|q qs IH]; intros m; simpl; [done|].
  by rewrite IH, countStep_keys.
Qed.

Lemma segmentGroups_keys qs : keys (segmentGroups qs) = groupsOf qs.
Proof. apply count_fold_keys. Qed.

(** The counter that the callback reads is the stored one, or 0. *)
Lemma countStep_value m q :
  countStep m q =
    JsMore.Map_set m (q_segmentIndex q)
      (default 0%Z (JsMore.Map_get m (q_segmentIndex q)) + 1).
Proof.
  unfold countStep. destruct (JsMore.Map_get m (q_segmentIndex q)) as [c|]; [|done].
  simpl. by destruct (Z.eqb_spec c 0) as [->|_].
Qed.

Lemma Map_get_set m key value key' :
  JsMore.Map_get (JsMore.Map_set m key value) key' =
    if decide (key = key') then Some value else JsMore.Map_get m key'.
Proof.
  induction m as [|e m IH].
  - change (JsMore.Map_set [] key value) with [(key, value)].
    rewrite Map_get_cons. simpl. by destruct (decide (key = key')).
  - rewrite Map_set_cons. destruct (decide (e.1 = key)) as [E|E].
    + rewrite !Map_get_cons. simpl.
      destruct (decide (key = key')) as [E'|E']; [done|].
      by rewrite decide_False by congruence.
    + rewrite !Map_get_cons, IH.
      destruct (decide (e.1 = key')) as [E'|E']; [|done].
      by rewrite decide_False by congruence.
Qed.

Lemma sumZ_Map_set m key :
  sumZ (snd <$> JsMore.Map_set m key (default 0%Z (JsMore.Map_get m key) + 1)) =
    (sumZ (snd <$> m) + 1)%Z.
Proof.
  induction m as [|e m IH]; [done|].
  rewrite Map_get_cons, Map_set_cons.
  destruct (decide (e.1 = key)) as [E|E].
  - rewrite !fmap_cons. simpl. unfold sumZ. simpl. lia.
  - rewrite !fmap_cons. unfold sumZ in *. simpl. rewrite IH. lia.
Qed.

Lemma count_fold_sum qs m :
  sumZ (snd <$> fold_left countStep qs m) =
    (sumZ (snd <$> m) + Z.of_nat (length qs))%Z.
Proof.
  revert m. induction qs as [|q qs IH]; intros m; simpl; [lia|].
  rewrite IH, countStep_value, sumZ_Map_set. lia.
Qed.

Lemma count_fold_get qs m g :
  JsMore.Map_get (fold_left countStep qs m) g =
    match length (groupOf qs g) with
    | O => JsMore.Map_get m g
    | S n => Some (default 0%Z (JsMore.Map_get m g) + Z.of_nat (S n))%Z
    end.
Proof.
  revert m. induction qs as [|q qs IH]; intros m; [done|].
  simpl fold_left. rewrite IH. unfold groupOf. rewrite filter_cons.
  rewrite countStep_value, Map_get_set.
  destruct (decide (q_segmentIndex q = g)) as [E|E]; simpl.
  - rewrite E. destruct (length (filter _ qs)); simpl; f_equal; lia.
  - done.
Qed.

Lemma Map_get_elem_of m key value :
  NoDup (keys m) -> (key, value) ∈ m -> JsMore.Map_get m key = Some value.
Proof.
  unfold keys. induction m as [|e m IH]; intros Hnd Hin; [by apply elem_of_nil in Hin|].
  simpl in Hnd. apply NoDup_cons in Hnd as [Hnotin Hnd].
  rewrite Map_get_cons. apply elem_of_cons in Hin as [<-|Hin]; simpl.
  - by rewrite decide_True.
  - rewrite decide_False; [by apply IH|].
    intros E. apply Hnotin. rewrite E.
    apply list_elem_of_fmap. by exists (key, value).
Qed.

Lemma segmentGroups_entry qs key value :
  (key, value) ∈ segmentGroups qs ->
  value = Z.of_nat (length (groupOf qs key)) /\ (1 <= value)%Z.
Proof.
  intros Hin.
  assert (Hget : JsMore.Map_get (segmentGroups qs) key = Some value).
  { apply Map_get_elem_of; [|done].
    rewrite segmentGroups_keys. apply groupsOf_NoDup. }
  unfold segmentGroups in Hget. rewrite count_fold_get in Hget.
  destruct (length (groupOf qs key)) as [|n] eqn:E.
  - exfalso. revert Hget. by rewrite Map_get_cons_nil.
  - injection Hget as <-. change (JsMore.Map_get [] key) with (@None Z).
    simpl. lia.
Qed.

Lemma entries_at_least_one (m : list (Z * Z)) :
  Forall (fun e => (1 <= e.2)%Z) m -> (Z.of_nat (length m) <= sumZ (snd <$> m))%Z.
Proof.
  induction 1 as [|e m He _ IH]; [done|].
  rewrite fmap_cons. unfold sumZ in *. simpl. lia.
Qed.

Lemma segmentGroups_entries qs :
  Forall (fun e => e.2 = Z.of_nat (length (groupOf qs e.1)) /\ (1 <= e.2)%Z)
         (segmentGroups qs).
Proof.
  apply Forall_forall. intros [key value] Hin. simpl.
  by apply segmentGroups_entry.
Qed.

Lemma segmentGroups_sum qs :
  sumZ (snd <$> segmentGroups qs) = Z.of_nat (length qs).
Proof. unfold segmentGroups. rewrite count_fold_sum. unfold sumZ. simpl. lia. Qed.

Lemma segmentGroups_size qs :
  (Z.of_nat (length (segmentGroups qs)) <= Z.of_nat (length qs))%Z /\
  (qs <> [] -> (0 < Z.of_nat (length (segmentGroups qs)))%Z).
Proof.
  split.
  - rewrite <- segmentGroups_sum. apply entries_at_least_one.
    eapply Forall_impl; [apply segmentGroups_entries|]. by intros e [_ ?].
  - intros Hne. destruct qs as [|q qs]; [done|].
    assert (Hin : q_segmentIndex q ∈ keys (segmentGroups (q :: qs))).
    { rewrite segmentGroups_keys. apply groupsOf_elem_of. exists q. split; [left|done]. }
    unfold keys in Hin. destruct (segmentGroups (q :: qs)); [|simpl; lia].
    by apply elem_of_nil in Hin.
Qed.

Lemma averagePerSegment_at_least_one total groups :
  (0 < groups <= total)%Z -> (1 <= averagePerSegment total groups)%Q.
Proof.
  intros [Hg Ht]. unfold averagePerSegment.
  destruct (Z.ltb_spec 0 groups) as [_|?]; [|lia].
  assert (HR : (10 <= Js.Math_round (inject_Z total / inject_Z groups * 10))%Z).
  { destruct groups as [|p|p]; try lia.
    unfold Js.Math_round, Qdiv, Qinv, Qmult, Qplus, inject_Z, Qfloor. simpl.
    apply Z.div_le_lower_bound; lia. }
  revert HR. generalize (Js.Math_round (inject_Z total / inject_Z groups * 10)).
  intros R HR. unfold Qle, Qdiv, Qmult, Qinv, inject_Z. simpl. lia.
Qed.

End StatsFacts.

Module QuestionStatistics.
Import QuestionController QuizSpec QuizFacts QuestionHandlers HandlersSpec StatsFacts.

(** X13: the statistics of a stored video count every question once: the
    per-segment entries are the distinct segment indices in order of first
    occurrence (the groups of the quiz assembly), each with the number of
    stored questions of that segment, which is at least 1; the counts add up
    to [totalQuestions]; the average is 0 without questions and at least 1
    otherwise; the status is the video's. *)
Theorem stats_count_every_question store vid record :
  store !! vid = Some record ->
  exists r,
    getQuestionStats store vid = Ok r /\
    qs_totalQuestions r =
      Z.of_nat (length (default [] (questions (vr_video record)))) /\
    sc_segmentIndex <$> qs_questionsBySegment r =
      groupsOf (default [] (questions (vr_video record))) /\
    Forall (fun e =>
              sc_questionCount e =
                Z.of_nat (length (groupOf (default [] (questions (vr_video record)))
                                          (sc_segmentIndex e))) /\
              (1 <= sc_questionCount e)%Z)
           (qs_questionsBySegment r) /\
    sumZ (sc_questionCount <$> qs_questionsBySegment r) = qs_totalQuestions r /\
    (default [] (questions (vr_video record)) = [] ->
       qs_averageQuestionsPerSegment r = 0%Q) /\
    (default [] (questions (vr_video record)) <> [] ->
       (1 <= qs_averageQuestionsPerSegment r)%Q) /\
    qs_generationStatus r = questionGenerationStatus record.
Proof.
  intros Hv. unfold getQuestionStats. rewrite Hv.
  set (qs := default [] (questions (vr_video record))).
  eexists. split; [reflexivity|]. simpl.
  split; [done|]. split.
  { rewrite <- list_fmap_compose. apply segmentGroups_keys. }
  split.
  { apply Forall_fmap. apply segmentGroups_entries. }
  split.
  { rewrite <- list_fmap_compose. apply segmentGroups_sum. }
  rewrite length_fmap. split; [|split; [|done]].
  - intros E. by rewrite E.
  - intros Hne. destruct (segmentGroups_size qs) as [H1 H2].
    apply averagePerSegment_at_least_one. split; [by apply H2 | exact H1].
Qed.

Lemma stats_count_every_question_witness :
  exists r,
    getQuestionStats {[ "v" := mkVideoRecord (mkVideo [] (Some examplePool)) "completed" ]}
                     "v" = Ok r /\
    sc_segmentIndex <$> qs_questionsBySegment r = groupsOf examplePool /\
    sumZ (sc_questionCount <$> qs_questionsBySegment r) = 4%Z.
Proof.
  destruct (stats_count_every_question
              {[ "v" := mkVideoRecord (mkVideo [] (Some examplePool)) "completed" ]}
              "v" (mkVideoRecord (mkVideo [] (Some examplePool)) "completed"))
    as (r & E & Ht & Hk & _ & Hs & _); [reflexivity|].
  exists r. split; [exact E|]. split; [exact Hk|]. rewrite Hs, Ht. reflexivity.
Defined.

End QuestionStatistics.

(** * Further properties of the quiz code *)

Module QuizMore.
Import QuestionController QuizSpec QuizFacts GradingFacts HandlersSpec.

Lemma shuffleLoop_draws {T : Type} random i (a : list T) k :
  (shuffleLoop random i a k).2 = (k + i)%nat.
Proof.
  revert a k. induction i as [|i IH]; intros a k; simpl; [lia|].
  rewrite IH. lia.
Qed.



Lemma gradeStep_record stored st a :
  gradeStep stored st a =
    match recordOf stored a with
    | Some r =>
        mkGrade (g_results st ++ [r])
                (if r_isCorrect r then g_correctAnswers st + 1 else g_correctAnswers st)
    | None => st
    end.
Proof.
  unfold gradeStep, recordOf.
  by destruct (Js.index stored (questionIndex a)).
Qed.

Lemma omap_cons {A B : Type} (f : A -> option B) x l :
  omap f (x :: l) = match f x with Some y => y :: omap f l | None => omap f l end.
Proof. reflexivity. Qed.

Lemma grade_results_omap stored l st :
  g_results (fold_left (gradeStep stored) l st) =
    g_results st ++ omap (recordOf stored) l.
Proof.
  revert st. induction l as [|a l IH]; intros st.
  - simpl. by rewrite app_nil_r.
  - simpl fold_left. rewrite IH, gradeStep_record, omap_cons.
    destruct (recordOf stored a); simpl; [|done].
    by rewrite <- app_assoc.
Qed.

Lemma grade_score_flags stored l st :
  g_correctAnswers (fold_left (gradeStep stored) l st) =
    (g_correctAnswers st +
     Z.of_nat (length (filter (fun r => r_isCorrect r = true)
                              (omap (recordOf stored) l))))%Z.
Proof.
  revert st. induction l as [|a l IH]; intros st; [simpl; lia|].
  simpl fold_left. rewrite IH, gradeStep_record, omap_cons.
  destruct (recordOf stored a) as [r|]; [|done].
  rewrite filter_cons. simpl g_correctAnswers.
  destruct (r_isCorrect r); simpl; lia.
Qed.

Lemma recordOf_sound stored a r :
  recordOf stored a = Some r ->
  exists q, Js.index stored (questionIndex a) = Some q /\
    r_questionIndex r = questionIndex a /\ r_question r = question q /\
    r_selectedAnswer r = selectedAnswer a /\ r_correctAnswer r = correctAnswer q /\
    (r_isCorrect r = true <-> selectedAnswer a = correctAnswer q) /\
    r_explanation r <> "".
Proof.
  unfold recordOf. destruct (Js.index stored (questionIndex a)) as [q|]; [|done].
  simpl. intros [= <-]. exists q. simpl. repeat split; try done.
  - by intros ?%Z.eqb_eq.
  - by intros ?%Z.eqb_eq.
  - by destruct (explanation q) as [[|c e]|].
Qed.

Lemma submitQuiz_fails store sub :
  nothingToQuiz store (videoId sub) ->
  submitQuiz None store sub =
    Throw (match store !! videoId sub with
           | None => "Failed to submit quiz: Video not found"
           | Some _ => "Failed to submit quiz: No questions available for grading"
           end).
Proof.
  unfold nothingToQuiz, submitQuiz, findById.
  destruct (store !! videoId sub) as [video|]; [|done].
  by intros [-> | ->].
Qed.

Lemma submitQuiz_rejected m store sub :
  submitQuiz (Some m) store sub = Throw ("Failed to submit quiz: " +:+ m).
Proof. reflexivity. Qed.

End QuizMore.

Module QuizGuarantees.
Import QuestionController QuizSpec QuizFacts GradingFacts HandlersSpec QuizMore.

(** X14: for a request body of the declared type [QuizSubmission] (a video
    id and an array of answer objects), grading throws exactly when the
    look-up of the video rejects, the video is absent or its stored question
    list is absent or empty.  The message is the handler's prefix followed
    by the message of the rejection, by "Video not found" or by "No questions
    available for grading"; in every other case a result is returned,
    whatever the answers are. *)
Theorem submitQuiz_fails_exactly rejection store sub :
  ((exists m, submitQuiz rejection store sub = Throw m) <->
     rejection <> None \/ nothingToQuiz store (videoId sub)) /\
  (forall m, rejection = Some m ->
     submitQuiz rejection store sub = Throw ("Failed to submit quiz: " +:+ m)) /\
  (rejection = None -> store !! videoId sub = None ->
     submitQuiz rejection store sub = Throw "Failed to submit quiz: Video not found") /\
  (rejection = None ->
   forall video, store !! videoId sub = Some video ->
     questions video = None \/ questions video = Some [] ->
     submitQuiz rejection store sub =
       Throw "Failed to submit quiz: No questions available for grading").
Proof.
  split; [|split; [|split]].
  - destruct rejection as [m0|].
    { rewrite submitQuiz_rejected. split; [intros _; by left|eauto]. }
    split.
    + intros [m Hm]. right. unfold nothingToQuiz.
      destruct (store !! videoId sub) as [video|] eqn:Hv; [|done].
      destruct (questions video) as [[|q0 stored]|] eqn:Hq; [by right| |by left].
      rewrite (submitQuiz_ok store sub video (q0 :: stored) Hv Hq) in Hm by done.
      discriminate Hm.
    + intros [?|Hn]; [done|]. rewrite submitQuiz_fails by assumption. eauto.
  - intros m ->. apply submitQuiz_rejected.
  - intros -> Hv. rewrite submitQuiz_fails by (unfold nothingToQuiz; by rewrite Hv).
    by rewrite Hv.
  - intros -> video Hv Hq.
    rewrite submitQuiz_fails by (unfold nothingToQuiz; by rewrite Hv).
    by rewrite Hv.
Qed.

Lemma submitQuiz_fails_exactly_witness :
  submitQuiz (Some "buffering timed out") libraryStore
             (mkSubmission storedId [mkAnswer 0 0; mkAnswer 7 0]) =
    Throw "Failed to submit quiz: buffering timed out" /\
  submitQuiz None libraryStore (mkSubmission absentId [mkAnswer 0 0; mkAnswer 1 0]) =
    Throw "Failed to submit quiz: Video not found" /\
  submitQuiz None (<[absentId := mkVideo [] (Some [])]> libraryStore)
             (mkSubmission absentId [mkAnswer 0 0]) =
    Throw "Failed to submit quiz: No questions available for grading" /\
  ~ exists m, submitQuiz None libraryStore
                (mkSubmission storedId [mkAnswer 0 0; mkAnswer 7 0]) = Throw m.
Proof.
  split; [|split; [|split]].
  - destruct (submitQuiz_fails_exactly (Some "buffering timed out") libraryStore
                (mkSubmission storedId [mkAnswer 0 0; mkAnswer 7 0])) as (_ & H & _).
    apply (H "buffering timed out"). reflexivity.
  - destruct (submitQuiz_fails_exactly None libraryStore
                (mkSubmission absentId [mkAnswer 0 0; mkAnswer 1 0]))
      as (_ & _ & H & _). apply H; reflexivity.
  - destruct (submitQuiz_fails_exactly None
                (<[absentId := mkVideo [] (Some [])]> libraryStore)
                (mkSubmission absentId [mkAnswer 0 0]))
      as (_ & _ & _ & H).
    apply (H eq_refl (mkVideo [] (Some []))); [reflexivity | by right].
  - destruct (submitQuiz_fails_exactly None libraryStore
                (mkSubmission storedId [mkAnswer 0 0; mkAnswer 7 0]))
      as (H & _).
    intros Hm. apply H in Hm as [Hm|Hm]; [done|].
    vm_compute in Hm. destruct Hm as [Hm|Hm]; discriminate Hm.
Defined.

(** X15: the per-answer records of a graded submission are, in submission
    order, one record for each submitted pair that points at a stored
    question; a record repeats the submitted index and answer, carries the
    text and the correct answer of the stored question at that index, is
    flagged correct exactly when the two answers are equal, and has a
    non-empty explanation; the score is the number of flagged records. *)
Theorem graded_records store sub video stored :
  store !! videoId sub = Some video -> questions video = Some stored ->
  stored <> [] ->
  exists r,
    submitQuiz None store sub = Ok r /\
    r_answers r = omap (recordOf stored) (answers sub) /\
    score r = Z.of_nat (length (filter (fun x => r_isCorrect x = true) (r_answers r))) /\
    (forall x, x ∈ r_answers r ->
       exists a q, a ∈ answers sub /\
         Js.index stored (questionIndex a) = Some q /\
         r_questionIndex x = questionIndex a /\ r_question x = question q /\
         r_selectedAnswer x = selectedAnswer a /\
         r_correctAnswer x = correctAnswer q /\
         (r_isCorrect x = true <-> selectedAnswer a = correctAnswer q) /\
         r_explanation x <> "").
Proof.
  intros Hv Hq Hne. rewrite (submitQuiz_ok store sub video stored Hv Hq Hne).
  eexists. split; [reflexivity|]. simpl.
  rewrite grade_results_omap, grade_score_flags. simpl.
  split; [done|]. split; [lia|].
  intros x (a & Ha & Hrec)%list_elem_of_omap.
  destruct (recordOf_sound stored a x Hrec) as (q & Hi & H).
  exists a, q. split; [done|]. split; [done|]. exact H.
Qed.

Lemma graded_records_witness :
  exists r,
    submitQuiz None exampleStore exampleSubmission = Ok r /\
    length (r_answers r) = 2%nat /\ score r = 1%Z.
Proof.
  destruct (graded_records exampleStore exampleSubmission
              (mkVideo [] (Some examplePool)) examplePool)
    as (r & E & Hr & Hs & _); [reflexivity | reflexivity | discriminate |].
  exists r. split; [exact E|]. rewrite Hs, Hr. split; reflexivity.
Defined.

(** X16: [shuffleArray] returns a permutation of its argument, of the
    same length, after drawing exactly one random number per element but
    the first; an empty or one-element array is returned as it is, without
    a draw. *)
Theorem shuffleArray_permutes {T : Type} random (a : list T) k :
  (shuffleArray random a k).1 ≡ₚ a /\
  length (shuffleArray random a k).1 = length a /\
  (shuffleArray random a k).2 = (k + (length a - 1))%nat /\
  ((length a <= 1)%nat -> shuffleArray random a k = (a, k)).
Proof.
  pose proof (shuffleLoop_Permutation random (length a - 1) a k) as HP.
  split; [exact HP|]. split; [by rewrite HP|].
  split; [apply shuffleLoop_draws|].
  intros Hlen. unfold shuffleArray.
  by replace (length a - 1)%nat with 0%nat by lia.
Qed.

Lemma shuffleArray_permutes_witness :
  shuffleArray zeroRandom [7%Z] 4 = ([7%Z], 4%nat) /\
  (shuffleArray zeroRandom [1%Z; 2%Z; 3%Z] 4).2 = 6%nat.
Proof.
  destruct (shuffleArray_permutes zeroRandom [7%Z] 4) as (_ & _ & _ & H1).
  destruct (shuffleArray_permutes zeroRandom [1%Z; 2%Z; 3%Z] 4) as (_ & _ & H2 & _).
  split; [apply H1; simpl; lia | exact H2].
Defined.



End QuizGuarantees.

(** * Properties of the error middleware *)

Module ErrorResponses.
Import QuestionController QuizSpec QuizFacts ErrorHandler.

(** X18: a request that fails because the video or its questions are not
    there is not answered with a not-found status: the middleware turns the
    handler's plain [Error] into status 500 with code INTERNAL_ERROR and the
    handler's message, here for the quiz assembly. *)
Theorem missing_quiz_is_answered_500 random clock store vid qps total shuffle k now url :
  nothingToQuiz store vid ->
  exists m,
    respond now url (generateQuiz random clock None store vid qps total shuffle k).1 =
      inr (mkErrorResponse 500 false "INTERNAL_ERROR" (Some m) now url) /\
    (m = "Failed to generate quiz: Video not found" \/
     m = "Failed to generate quiz: No questions available for this video").
Proof.
  intros Hn. rewrite generateQuiz_fails by assumption. simpl.
  destruct (store !! vid); eexists; (split; [reflexivity|]); auto.
Qed.

Lemma missing_quiz_is_answered_500_witness :
  exists m,
    respond "2024-01-01T00:00:00.000Z" "/api/questions/w/quiz"
      (generateQuiz zeroRandom 0 None exampleStore "w" None None None 0).1 =
      inr (mkErrorResponse 500 false "INTERNAL_ERROR" (Some m)
             "2024-01-01T00:00:00.000Z" "/api/questions/w/quiz").
Proof.
  destruct (missing_quiz_is_answered_500 zeroRandom 0 exampleStore "w" None None None 0
              "2024-01-01T00:00:00.000Z" "/api/questions/w/quiz")
    as (m & H & _); [reflexivity|].
  exists m. exact H.
Defined.

(** X19: the middleware always answers with [success = false], the
    current time and the request's path.  An upload error for a file that is
    too large is answered 413 FILE_TOO_LARGE whatever else the error carries;
    otherwise an error with an [httpCode] is answered with that status but
    still with code INTERNAL_ERROR; and an error without [httpCode] is
    answered 400, 409 or 500, never another status. *)
Theorem error_response_shape now url e :
  success (error now url e) = false /\
  timestamp (error now url e) = now /\ path (error now url e) = url /\
  (e_code e = Some (inr "LIMIT_FILE_SIZE") ->
     statusCode (error now url e) = 413%Z /\
     errorCode (error now url e) = "FILE_TOO_LARGE") /\
  (forall c, e_httpCode e = Some c -> c <> 0%Z ->
     (forall s, e_code e <> Some (inr s)) ->
     statusCode (error now url e) = c /\
     errorCode (error now url e) = "INTERNAL_ERROR" /\
     errorMessage (error now url e) = e_message e) /\
  (Js.truthy (e_httpCode e) = false ->
     (forall s, e_code e <> Some (inr s)) ->
     statusCode (error now url e) = 400%Z \/
     statusCode (error now url e) = 409%Z \/
     statusCode (error now url e) = 500%Z).
Proof.
  unfold error.
  set (first := if Js.truthy (e_httpCode e) then _ else _).
  destruct first as [[st1 msg1] code1] eqn:E1.
  set (second := if codeIsString e "LIMIT_FILE_SIZE" then _ else _).
  destruct second as [[st2 msg2] code2] eqn:E2. simpl.
  split; [done|]. split; [done|]. split; [done|]. split; [|split].
  - intros Hc. subst second. unfold codeIsString in E2. rewrite Hc in E2.
    simpl in E2. by injection E2 as <- <- <-.
  - intros c Hc Hnz Hnostr.
    assert (Hno : forall s, codeIsString e s = false).
    { intros s. unfold codeIsString. destruct (e_code e) as [[n|s']|]; try done.
      by destruct (Hnostr s'). }
    subst second. rewrite !Hno in E2. injection E2 as <- <- <-.
    subst first. unfold Js.truthy in E1. rewrite Hc in E1.
    destruct (Z.eqb_spec c 0) as [?|_]; [done|]. simpl in E1.
    by injection E1 as <- <- <-.
  - intros Hf Hnostr.
    assert (Hno : forall s, codeIsString e s = false).
    { intros s. unfold codeIsString. destruct (e_code e) as [[n|s']|]; try done.
      by destruct (Hnostr s'). }
    subst second. rewrite !Hno in E2. injection E2 as <- <- <-.
    subst first. rewrite Hf in E1.
    destruct (nameIs e "ValidationError");
      [injection E1 as <- _ _; by left|].
    destruct (nameIs e "CastError");
      [injection E1 as <- _ _; by left|].
    destruct (codeIsNumber e 11000);
      [injection E1 as <- _ _; right; by left|].
    destruct (nameIs e "MongooseError");
      [injection E1 as <- _ _; right; by right|].
    destruct (e_message e) as [[|c m]|]; injection E1 as <- _ _; right; by right.
Qed.

Lemma error_response_shape_witness :
  statusCode (error "t" "/u" (mkJsError (Some "gone") (Some 404%Z) (Some "Error") None)) =
    404%Z /\
  errorCode (error "t" "/u" (mkJsError (Some "gone") (Some 404%Z) (Some "Error") None)) =
    "INTERNAL_ERROR" /\
  statusCode (error "t" "/u"
                (mkJsError (Some "big") (Some 404%Z) None (Some (inr "LIMIT_FILE_SIZE")))) =
    413%Z.
Proof.
  destruct (error_response_shape "t" "/u"
              (mkJsError (Some "gone") (Some 404%Z) (Some "Error") None))
    as (_ & _ & _ & _ & H1 & _).
  destruct (error_response_shape "t" "/u"
              (mkJsError (Some "big") (Some 404%Z) None (Some (inr "LIMIT_FILE_SIZE"))))
    as (_ & _ & _ & H2 & _).
  destruct (H1 404%Z) as (Ha & Hb & _); [reflexivity | lia | discriminate |].
  destruct H2 as [Hc _]; [reflexivity|].
  auto.
Defined.

End ErrorResponses.

(** * Properties of question generation *)

Module GenerationFacts.
Import QuestionController QuizSpec QuizFacts HandlersSpec QuestionGenerationService.

Lemma convertQuestion_sound segIdx rq q :
  convertQuestion segIdx rq = Some q -> wellFormed q /\ q_segmentIndex q = segIdx.
Proof.
  unfold convertQuestion, wellFormed.
  destruct (rq_question rq) as [[|c t]|]; try done.
  destruct (Nat.eqb_spec (length (default [] (rq_options rq))) 4) as [E|E]; [|done].
  intros [= <-]. simpl. repeat split; eauto.
Qed.

Lemma parseQuestions_sound extractJson response segIdx :
  Forall (fun q => wellFormed q /\ q_segmentIndex q = segIdx)
         (parseQuestions extractJson response segIdx).
Proof.
  unfold parseQuestions. destruct (extractJson response) as [[[raw|]]|]; try constructor.
  apply Forall_forall. intros q (rq & _ & Hq)%list_elem_of_omap.
  by apply (convertQuestion_sound segIdx rq).
Qed.

Lemma mock_questions segment :
  exists q1 q2 q3,
    generateMockQuestions segment = [q1; q2; q3] /\
    Forall (fun q => wellFormed q /\ q_segmentIndex q = segmentIndex segment /\
                     (0 <= correctAnswer q <= 3)%Z) [q1; q2; q3].
Proof.
  eexists _, _, _. split; [reflexivity|].
  unfold wellFormed. repeat constructor; simpl; eauto; try lia; done.
Qed.

Lemma forSegment_sound extractJson llm segment k :
  let r := generateQuestionsForSegment extractJson llm segment k in
  r.2 = S k /\ r.1 <> [] /\
  Forall (fun q => wellFormed q /\ q_segmentIndex q = segmentIndex segment) r.1.
Proof.
  assert (Hmock : generateMockQuestions segment <> [] /\
    Forall (fun q => wellFormed q /\ q_segmentIndex q = segmentIndex segment)
           (generateMockQuestions segment)).
  { destruct (mock_questions segment) as (q1 & q2 & q3 & -> & HF). split; [done|].
    eapply Forall_impl; [exact HF|]. by intros q (? & ? & _). }
  unfold generateQuestionsForSegment. destruct (llm k) as [response|m]; [|by simpl].
  pose proof (parseQuestions_sound extractJson response (segmentIndex segment)) as HP.
  destruct (parseQuestions extractJson response (segmentIndex segment)) as [|q qs];
    [by simpl|]. simpl. by repeat split.
Qed.

(** The blocks of questions, one per segment, that the loop appends. *)
Lemma generate_fold extractJson llm segs acc k :
  exists blocks,
    fold_left (generateStep extractJson llm) segs (acc, k) =
      (acc ++ concat blocks, (k + length segs)%nat) /\
    Forall2 (fun s block =>
               block <> [] /\
               Forall (fun q => wellFormed q /\ q_segmentIndex q = segmentIndex s) block)
            segs blocks.
Proof.
  revert acc k. induction segs as [|s segs IH]; intros acc k; simpl.
  - exists []. simpl. rewrite app_nil_r, Nat.add_0_r. split; [done|constructor].
  - unfold generateStep at 2. simpl.
    destruct (forSegment_sound extractJson llm s k) as (Hk & Hne & HF).
    destruct (generateQuestionsForSegment extractJson llm s k) as [block k1].
    simpl in *. subst k1.
    destruct (IH (acc ++ block) (S k)) as (blocks & -> & HB).
    exists (block :: blocks). simpl. rewrite <- app_assoc.
    split; [f_equal; lia|]. by constructor.
Qed.

Lemma Set_add_again s x : x ∈ s -> Js.Set_add s x = s.
Proof. intros H. unfold Js.Set_add. by rewrite decide_True. Qed.

Lemma Set_fold_block (block : list IQuestion) g s :
  block <> [] -> Forall (fun q => q_segmentIndex q = g) block ->
  fold_left Js.Set_add (q_segmentIndex <$> block) s = Js.Set_add s g.
Proof.
  intros Hne HF. destruct block as [|q block]; [done|].
  inversion HF as [|? ? Hq HF']; subst. simpl. clear Hne HF.
  assert (Hin : q_segmentIndex q ∈ Js.Set_add s (q_segmentIndex q)).
  { apply Set_add_elem_of. by right. }
  revert Hin. generalize (Js.Set_add s (q_segmentIndex q)). intros s' Hin.
  induction HF' as [|q' block Hq' _ IH]; [done|].
  simpl. rewrite Hq', Set_add_again by done. exact IH.
Qed.

Lemma Set_fold_blocks segs blocks s :
  Forall2 (fun seg block =>
             block <> [] /\
             Forall (fun q => wellFormed q /\ q_segmentIndex q = segmentIndex seg) block)
          segs blocks ->
  fold_left Js.Set_add (q_segmentIndex <$> concat blocks) s =
  fold_left Js.Set_add (segmentIndex <$> segs) s.
Proof.
  intros HF. revert s. induction HF as [|seg block segs blocks [Hne Hb] _ IH]; intros s.
  - done.
  - simpl. rewrite fmap_app, fold_left_app.
    rewrite (Set_fold_block block (segmentIndex seg)); [apply IH|done|].
    eapply Forall_impl; [exact Hb|]. by intros q [_ ?].
Qed.

Lemma generated_for_each_segment extractJson llm segs k s :
  s ∈ segs ->
  exists q, q ∈ (generateQuestions extractJson llm segs k).1 /\
            q_segmentIndex q = segmentIndex s.
Proof.
  unfold generateQuestions.
  destruct (generate_fold extractJson llm segs [] k) as (blocks & -> & HF).
  simpl. intros Hs.
  induction HF as [|s0 b ss bs [Hne Hb] _ IH]; [by apply elem_of_nil in Hs|].
  apply elem_of_cons in Hs as [->|Hs].
  - destruct b as [|q b]; [done|]. exists q. simpl. split; [left|].
    by inversion Hb as [|? ? [_ ?] _].
  - destruct (IH Hs) as (q & Hq & ?). exists q. simpl.
    split; [apply elem_of_app; by right|done].
Qed.

Lemma generated_groups extractJson llm segs k :
  groupsOf (generateQuestions extractJson llm segs k).1 =
    Js.Set_values (segmentIndex <$> segs).
Proof.
  unfold generateQuestions.
  destruct (generate_fold extractJson llm segs [] k) as (blocks & -> & HF).
  simpl. unfold groupsOf, Js.Set_values. by apply Set_fold_blocks.
Qed.

Lemma Set_fold_NoDup_app l s :
  NoDup (s ++ l) -> fold_left Js.Set_add l s = s ++ l.
Proof.
  revert s. induction l as [|x l IH]; intros s Hnd; simpl.
  - by rewrite app_nil_r.
  - assert (Hx : x ∉ s).
    { apply NoDup_app in Hnd as (_ & Hdis & _). intros Hin.
      apply (Hdis x Hin). left. }
    unfold Js.Set_add at 2. rewrite decide_False by done.
    rewrite IH; [by rewrite <- app_assoc|]. by rewrite <- app_assoc.
Qed.

Lemma Set_values_NoDup l : NoDup l -> Js.Set_values l = l.
Proof. intros H. unfold Js.Set_values. by rewrite Set_fold_NoDup_app. Qed.

Lemma indicesFromZero_NoDup n : NoDup (indicesFromZero n).
Proof.
  unfold indicesFromZero. apply NoDup_fmap; [apply Nat2Z.inj'|apply NoDup_seq].
Qed.

End GenerationFacts.

Module QuestionGeneration.
Import QuestionController QuizSpec QuizFacts HandlersSpec QuestionGenerationService
       GenerationFacts.

(** X21: question generation covers every segment, whether the model
    answers, answers with something unusable or fails: the model is called
    once per segment, and the result holds, in the order of the segments, at
    least one question for each of them, exactly three when the model is
    unreachable and the fallback is used; every question carries the index
    of one of the segments; and the distinct segment indices of the
    questions are those of the segments, in the same order. *)
Theorem generated_questions_cover_segments extractJson llm segs k :
  (generateQuestions extractJson llm segs k).2 = (k + length segs)%nat /\
  (forall q, q ∈ (generateQuestions extractJson llm segs k).1 ->
     exists s, s ∈ segs /\ q_segmentIndex q = segmentIndex s) /\
  (forall s, s ∈ segs ->
     exists q, q ∈ (generateQuestions extractJson llm segs k).1 /\
               q_segmentIndex q = segmentIndex s) /\
  groupsOf (generateQuestions extractJson llm segs k).1 =
    Js.Set_values (segmentIndex <$> segs) /\
  (length segs <= length (generateQuestions extractJson llm segs k).1)%nat /\
  ((forall i, exists m, llm i = Throw m) ->
     length (generateQuestions extractJson llm segs k).1 = (3 * length segs)%nat).
Proof.
  unfold generateQuestions.
  destruct (generate_fold extractJson llm segs [] k) as (blocks & E & HF).
  split; [by rewrite E|]. split; [|split; [|split; [|split]]].
  - rewrite E. simpl. clear E. intros q Hq.
    induction HF as [|s b ss bs [_ Hb] _ IH]; [by apply elem_of_nil in Hq|].
    simpl in Hq. apply elem_of_app in Hq as [Hq|Hq].
    + exists s. split; [left|]. rewrite Forall_forall in Hb. by apply Hb.
    + destruct (IH Hq) as (s' & ? & ?). exists s'. split; [by right|done].
  - rewrite E. simpl. clear E. intros s Hs.
    induction HF as [|s0 b ss bs [Hne Hb] _ IH]; [by apply elem_of_nil in Hs|].
    apply elem_of_cons in Hs as [->|Hs].
    + destruct b as [|q b]; [done|]. exists q. simpl. split; [left|].
      by inversion Hb as [|? ? [_ ?] _].
    + destruct (IH Hs) as (q & Hq & ?). exists q. simpl.
      split; [apply elem_of_app; by right|done].
  - rewrite E. simpl. unfold groupsOf, Js.Set_values. by apply Set_fold_blocks.
  - rewrite E. simpl. clear E.
    induction HF as [|s b ss bs [Hne _] _ IH]; [done|].
    simpl. rewrite length_app. destruct b; [done|]. simpl. lia.
  - intros Hdown. clear E HF blocks.
    assert (H : forall acc k,
      length (fold_left (generateStep extractJson llm) segs (acc, k)).1 =
        (length acc + 3 * length segs)%nat).
    { induction segs as [|s ss IH]; intros acc k'; simpl; [lia|].
      unfold generateStep at 2, generateQuestionsForSegment. simpl.
      destruct (Hdown k') as [m ->]. rewrite IH, length_app.
      destruct (mock_questions s) as (q1 & q2 & q3 & -> & _). simpl. lia. }
    apply (H [] k).
Qed.

Lemma generated_questions_cover_segments_witness :
  length (generateQuestions noJson llmDown
            [mkSegment 0 310 "one" 0; mkSegment 310 320 "two" 1] 0).1 = 6%nat.
Proof.
  destruct (generated_questions_cover_segments noJson llmDown
              [mkSegment 0 310 "one" 0; mkSegment 310 320 "two" 1] 0)
    as (_ & _ & _ & _ & _ & H).
  apply H. intros i. eexists. reflexivity.
Defined.

End QuestionGeneration.

(** * From the transcript to the quiz *)

Module ProcessedVideo.
Import TranscriptionService MergerFacts QuestionController QuizSpec QuizFacts
       HandlersSpec QuestionGenerationService GenerationFacts.

(** X22: once a video has been processed, that is its segments are the
    merger's output, not empty, and its questions are those generated for
    these segments, a quiz can always be assembled from it, whatever the
    model answered: the assembly does not fail; the question groups are the
    segments, one group per segment in order; and in per-segment mode with a
    count of at least 1 (2 by default) the quiz has a question from every
    segment. *)
Theorem processed_video_has_a_quiz
    random clock extractJson llm store vid fs segs k qps total shuffle k' :
  segmentTranscript (mkTranscript (Some fs)) = Ok segs -> segs <> [] ->
  store !! vid = Some (mkVideo segs (Some (generateQuestions extractJson llm segs k).1)) ->
  exists quiz k'',
    generateQuiz random clock None store vid qps total shuffle k' = (Ok quiz, k'') /\
    groupsOf (generateQuestions extractJson llm segs k).1 =
      indicesFromZero (length segs) /\
    (Js.truthy total = false -> (1 <= default 2%Z qps)%Z ->
     forall s, s ∈ segs ->
       exists x, x ∈ quiz_questions quiz /\
                 q_segmentIndex (qq_question x) = segmentIndex s).
Proof.
  intros Hs Hne Hv.
  set (pool := (generateQuestions extractJson llm segs k).1) in *.
  assert (Hcover : forall s, s ∈ segs ->
            exists q, q ∈ pool /\ q_segmentIndex q = segmentIndex s).
  { intros s. apply generated_for_each_segment. }
  assert (Hpool : pool <> []).
  { destruct segs as [|s segs']; [done|].
    destruct (Hcover s) as (q & Hq & _); [left|]. intros E. rewrite E in Hq.
    by apply elem_of_nil in Hq. }
  destruct (generateQuiz_ok random clock store vid _ pool qps total shuffle k'
              Hv eq_refl Hpool) as (quiz & k'' & E & HP & _).
  exists quiz, k''. split; [exact E|]. split.
  { subst pool. rewrite generated_groups.
    assert (Hidx : segmentIndex <$> segs = indicesFromZero (length segs)).
    { injection Hs as <-. unfold ensureMinimumSegmentLength.
      rewrite reindex_length. apply reindex_indices. }
    rewrite Hidx. apply Set_values_NoDup, indicesFromZero_NoDup. }
  intros Ht HC s Hin.
  destruct (perSegment_selection random pool (default 2%Z qps) total k'
              ltac:(lia) Ht) as (chunks & Esel & _ & _ & Hcount).
  rewrite Esel in HP.
  destruct (Hcover s Hin) as (q & Hq & Hqs).
  assert (Hgroup : (1 <= length (groupOf pool (segmentIndex s)))%nat).
  { assert (Hin' : q ∈ groupOf pool (segmentIndex s)).
    { unfold groupOf. by apply list_elem_of_filter. }
    destruct (groupOf pool (segmentIndex s)); [by apply elem_of_nil in Hin'|].
    simpl. lia. }
  specialize (Hcount (segmentIndex s)). rewrite <- HP in Hcount.
  destruct (filter (fun q => q_segmentIndex q = segmentIndex s)
                   (qq_question <$> quiz_questions quiz)) as [|y l] eqn:Ef.
  { simpl in Hcount. lia. }
  assert (Hy : y ∈ filter (fun q => q_segmentIndex q = segmentIndex s)
                          (qq_question <$> quiz_questions quiz))
    by (rewrite Ef; left).
  apply list_elem_of_filter in Hy as [Hy1 Hy2].
  apply list_elem_of_fmap in Hy2 as (x & -> & Hx).
  exists x. by split.
Qed.

Lemma processed_video_has_a_quiz_witness :
  exists quiz k'',
    generateQuiz zeroRandom 0 None
      {[ "p" := mkVideo [mkSegment 0 10 "hi" 0]
                  (Some (generateQuestions noJson llmDown [mkSegment 0 10 "hi" 0] 0).1) ]}
      "p" None None None 0 = (Ok quiz, k'').
Proof.
  destruct (processed_video_has_a_quiz zeroRandom 0 noJson llmDown
              {[ "p" := mkVideo [mkSegment 0 10 "hi" 0]
                          (Some (generateQuestions noJson llmDown
                                   [mkSegment 0 10 "hi" 0] 0).1) ]}
              "p" [mkFragment (Some 0%Q) (Some 10%Q) (Some " hi ")]
              [mkSegment 0 10 "hi" 0] 0 None None None 0)
    as (quiz & k'' & E & _); [vm_compute; reflexivity | discriminate | reflexivity |].
  exists quiz, k''. exact E.
Defined.

End ProcessedVideo.
